(** * freqplot.py: Bode, Nyquist and Gang-of-Four frequency plots

    A shallow embedding of [bode], [nyquist] and [gangof4] from
    [src/freqplot.py] together with the properties stated about them.

    Modelling conventions.
    - A numpy float is a real number of [R]; a one-dimensional array is a
      [list R]; a complex pole or zero is a pair (real part, imaginary part).
      Rounding of IEEE doubles is outside the model.
    - The calls the module makes to its collaborators (the [freqresp] method
      of a system object and the functions of [matplotlib.pyplot]) are
      recorded, in program order, in a log that is threaded through the
      code together with a possible Python exception.
    - [unwrap] (ctrlutil) and the system algebra [*], [feedback] (bdalg) are
      not defined in freqplot.py; they are parameters of the development.
      The sign with which [feedback] closes the loop by default is modelled
      on static gains ([bdalg]). *)

From Stdlib Require Import String.
From Stdlib Require Import Reals Lra Lia ZArith Bool List.
Import ListNotations.
Local Open Scope R_scope.

(** ** Python exceptions and results *)

Inductive exn : Type :=
| ValueError.

Definition result (A : Type) : Type := (exn + A)%type.

(** ** The numpy functions used by freqplot.py *)

Module np.

(** A complex number, as (re, im). *)
Definition complex : Type := (R * R)%type.

(** [np.abs] on one complex number: the modulus. *)
Definition abs1 (z : complex) : R := sqrt (fst z * fst z + snd z * snd z).

(** [np.abs] on an array of complex numbers. *)
Definition abs (a : list complex) : list R := map abs1 a.

(** [np.concatenate((a, b))]. *)
Definition concatenate (a b : list R) : list R := a ++ b.

(** The mask [a != 0] at one element. *)
Definition ne0 (x : R) : bool := if Req_dec_T x 0 then false else true.

(** [a[a != 0]]: boolean-mask indexing. *)
Definition mask_ne0 (a : list R) : list R := filter ne0 a.

(** [np.log10] on one number. numpy's -inf at 0 and nan below 0 are not
    modelled; the properties below apply it to positive numbers only. *)
Definition log10_1 (x : R) : R := ln x / ln 10.

(** [np.log10] on an array. *)
Definition log10 (a : list R) : list R := map log10_1 a.

(** [np.floor] and [np.ceil]: the result is again a float. *)
Definition floor (x : R) : R := IZR (Zfloor x).
Definition ceil (x : R) : R := IZR (Zceil x).

(** [np.min] and [np.max] of an array; a zero-size array raises
    ValueError. *)
Definition min (a : list R) : result R :=
  match a with
  | [] => inl ValueError
  | x :: t => inr (fold_left Rmin t x)
  end.

Definition max (a : list R) : result R :=
  match a with
  | [] => inl ValueError
  | x :: t => inr (fold_left Rmax t x)
  end.

(** [np.linspace(start, stop, num)] with the end point included:
    [arange(0, num) * step + start] with the last sample set to [stop]. *)
Definition linspace (start stop : R) (num : nat) : list R :=
  match num with
  | O => []
  | S O => [start]
  | S n =>
      let step := (stop - start) / INR n in
      map (fun i => INR i * step + start) (seq 0 n) ++ [stop]
  end.

(** [np.logspace(start, stop)]: 50 samples, base 10. *)
Definition logspace (start stop : R) : list R :=
  map (Rpower 10) (linspace start stop 50).

(** Shape of the broadcast of two one-dimensional arrays, and
    [np.multiply]. Arrays of different lengths broadcast only when one of
    them has length one. *)
Definition multiply (a b : list R) : result (list R) :=
  if Nat.eqb (length a) (length b) then inr (map (fun p => fst p * snd p) (combine a b))
  else match a, b with
       | [x], _ => inr (map (fun y => x * y) b)
       | _, [y] => inr (map (fun x => x * y) a)
       | _, _ => inl ValueError
       end.

(** Elementwise [cos], [sin] and unary minus; array-by-scalar product and
    quotient. *)
Definition cos (a : list R) : list R := map Rtrigo_def.cos a.
Definition sin (a : list R) : list R := map Rtrigo_def.sin a.
Definition negative (a : list R) : list R := map Ropp a.
Definition times (a : list R) (k : R) : list R := map (fun x => x * k) a.
Definition scalar_times (k : R) (a : list R) : list R := map (fun x => k * x) a.
Definition over (a : list R) (k : R) : list R := map (fun x => x / k) a.

End np.

(** scipy (of that time) re-exports the numpy names freqplot.py uses. *)

Module sp.
Definition pi : R := PI.
Definition log10 := np.log10.
Definition logspace := np.logspace.
Definition multiply := np.multiply.
Definition cos := np.cos.
Definition sin := np.sin.
End sp.

(** ** System objects *)

(** What freqplot.py asks of a system object ([linsys]). *)
Class LinSys (sys : Type) : Type := {
  poles : sys -> list np.complex;
  zeros : sys -> list np.complex;
  (** [sys.freqresp(omega)] returns [(mag, phase, omega)]. *)
  freqresp : sys -> list R -> list R * list R * list R
}.

(** An argument of [feedback]: a Python number or a system. *)
Inductive operand (sys : Type) : Type :=
| Scalar (k : Z)
| System (s : sys).
Arguments Scalar {sys} k.
Arguments System {sys} s.

(** The block-diagram algebra (bdalg) used by [gangof4]: [P*C] and
    [feedback(sys1, sys2)] with its default sign. *)
Class LinSysAlgebra (sys : Type) : Type := {
  sys_mul : sys -> sys -> sys;
  feedback : operand sys -> operand sys -> sys
}.

(** ** The plotting surface *)

(** The pyplot calls freqplot.py makes, with their arguments. *)
Inductive plt_call : Type :=
| subplot (code : Z)
| semilogx (x y : list R)
| loglog (x y : list R)
| plot (x y : list R) (fmt : string)
| ylabel (s : string)
| xlabel (s : string)
| grid (b : bool) (which : option string)
| hold (b : bool).

(** A call to a collaborator: a frequency-response query of a system or a
    drawing command. *)
Inductive call (sys : Type) : Type :=
| Freqresp (s : sys) (omega : list R)
| Plt (c : plt_call).
Arguments Freqresp {sys} s omega.
Arguments Plt {sys} c.


(** ** The effect monad: a log of calls and a possible exception *)

Section Effects.

Context {sys : Type}.

Definition M (A : Type) : Type := list (call sys) -> result A * list (call sys).

Definition ret {A : Type} (a : A) : M A := fun log => (inr a, log).

Definition bind {A B : Type} (m : M A) (k : A -> M B) : M B :=
  fun log =>
    match m log with
    | (inl e, log') => (inl e, log')
    | (inr a, log') => k a log'
    end.

(** Lift a pure computation that may raise. *)
Definition lift {A : Type} (r : result A) : M A := fun log => (r, log).

(** Record a call at the end of the log. *)
Definition emit (c : call sys) : M unit := fun log => (inr tt, log ++ [c]).

End Effects.

Declare Scope freqplot_scope.
Delimit Scope freqplot_scope with freqplot.
Notation "x <- m ;; k" := (bind m (fun x => k))
  (at level 61, m at next level, right associativity) : freqplot_scope.
Notation "' p <- m ;; k" := (bind m (fun x => match x with p => k end))
  (at level 61, p pattern, m at next level, right associativity) : freqplot_scope.
Notation "m ;; k" := (bind m (fun _ => k))
  (at level 61, right associativity) : freqplot_scope.
Local Open Scope freqplot_scope.

(** pyplot, as calls recorded in the log. *)
Module plt.
Section Calls.
Context {sys : Type}.
Definition subplot (code : Z) : @M sys unit := emit (Plt (subplot code)).
Definition semilogx (x y : list R) : @M sys unit := emit (Plt (semilogx x y)).
Definition loglog (x y : list R) : @M sys unit := emit (Plt (loglog x y)).
Definition plot (x y : list R) (fmt : string) : @M sys unit := emit (Plt (plot x y fmt)).
Definition ylabel (s : string) : @M sys unit := emit (Plt (ylabel s)).
Definition xlabel (s : string) : @M sys unit := emit (Plt (xlabel s)).
Definition grid (b : bool) (which : option string) : @M sys unit := emit (Plt (grid b which)).
Definition hold (b : bool) : @M sys unit := emit (Plt (hold b)).
End Calls.
End plt.

(** ** freqplot.py *)

(** The first argument of [bode]: one system or an iterable of systems. *)
Inductive sysarg (sys : Type) : Type :=
| Single (s : sys)
| Many (l : list sys).
Arguments Single {sys} s.
Arguments Many {sys} l.

Section Freqplot.

Context {sys : Type} `{LinSys sys}.

(** [unwrap(angle, period)] of ctrlutil. *)
Variable unwrap : list R -> R -> list R.

(** [sys.freqresp(omega)], recorded. *)
Definition call_freqresp (s : sys) (omega : list R) : M (list R * list R * list R) :=
  emit (Freqresp s omega) ;; ret (freqresp s omega).

(** Lines 95-99: the magnitudes of all poles and zeros of the systems. *)
Definition features_of (syslist : list sys) : list R :=
  fold_left
    (fun features s =>
       let features := np.concatenate features (np.abs (poles s)) in
       np.concatenate features (np.abs (zeros s)))
    syslist [].

(** Lines 94-112: the default frequency range. *)
Definition default_omega (syslist : list sys) : result (list R) :=
  let features := features_of syslist in
  let features := np.mask_ne0 features in
  let features := match features with [] => [1] | _ :: _ => features end in
  let features := np.log10 features in
  match np.min features with
  | inl e => inl e
  | inr lo =>
      match np.max features with
      | inl e => inl e
      | inr hi => inr (sp.logspace (np.floor lo - 1) (np.ceil hi + 1))
      end
  end.

Section BodeLoop.

Variables dB Hz : bool.

(** Lines 115-152: the body of the loop over the systems. It reads the
    variable [omega] and assigns it (lines 116 and 117); the value it
    leaves in [omega] is returned. *)
Definition bode_body (s : sys) (omega : list R) : M (list R) :=
  '(mag, phase, omega) <- call_freqresp s omega ;;
  let omega := if Hz then np.over omega (2 * sp.pi) else omega in
  let mag := if dB then np.scalar_times 20 (sp.log10 mag) else mag in
  let phase := unwrap (np.over (np.times phase 180) sp.pi) 360 in
  plt.subplot 211 ;;
  (if dB
   then plt.semilogx omega mag ;; plt.ylabel "Magnitude (dB)"
   else plt.loglog omega mag ;; plt.ylabel "Magnitude") ;;
  plt.grid true None ;;
  plt.grid true (Some "minor"%string) ;;
  plt.hold true ;;
  plt.subplot 212 ;;
  plt.semilogx omega phase ;;
  plt.hold true ;;
  plt.grid true None ;;
  plt.grid true (Some "minor"%string) ;;
  plt.ylabel "Phase (deg)" ;;
  (if Hz
   then plt.xlabel "Frequency (Hz)"
   else plt.xlabel "Frequency (rad/sec)") ;;
  ret omega.

(** Line 114: [for sys in syslist]. *)
Fixpoint bode_loop (syslist : list sys) (omega : list R) : M unit :=
  match syslist with
  | [] => ret tt
  | s :: rest => omega <- bode_body s omega ;; bode_loop rest omega
  end.

End BodeLoop.

(** Lines 81-82: a single system becomes a one-element tuple. *)
Definition as_syslist (a : sysarg sys) : list sys :=
  match a with
  | Single s => [s]
  | Many l => l
  end.

(** Lines 93-112: the sweep [bode] works with. *)
Definition bode_sweep (syslist : list sys) (omega : option (list R)) : result (list R) :=
  match omega with
  | None => default_omega syslist
  | Some w => inr w
  end.

Definition bode (syslist : sysarg sys) (omega : option (list R)) (dB Hz : bool)
  : M (Z * Z) :=
  let syslist := as_syslist syslist in
  omega <- lift (bode_sweep syslist omega) ;;
  bode_loop dB Hz syslist omega ;;
  ret (211%Z, 212%Z).

(** Lines 180-181 and 222-223: the sweep of [nyquist] and of [gangof4]. *)
Definition fixed_sweep (omega : option (list R)) : list R :=
  match omega with
  | None => sp.logspace (-2) 2
  | Some w => w
  end.

Definition nyquist (s : sys) (omega : option (list R)) : M unit :=
  let omega := fixed_sweep omega in
  '(mag, phase, omega) <- call_freqresp s omega ;;
  x <- lift (sp.multiply mag (sp.cos phase)) ;;
  y <- lift (sp.multiply mag (sp.sin phase)) ;;
  plt.plot x y "-" ;;
  plt.plot x (np.negative y) "--" ;;
  plt.plot [-1] [0] "+k".

Context `{LinSysAlgebra sys}.

Definition gangof4 (P C : sys) (omega : option (list R)) : M unit :=
  let omega := fixed_sweep omega in
  let L := sys_mul P C in
  let S := feedback (Scalar 1) (System L) in
  let T := sys_mul L S in
  '(mag, phase, omega) <- call_freqresp T omega ;;
  plt.subplot 221 ;; plt.loglog omega mag ;;
  '(mag, phase, omega) <- call_freqresp (sys_mul P S) omega ;;
  plt.subplot 222 ;; plt.loglog omega mag ;;
  '(mag, phase, omega) <- call_freqresp (sys_mul C S) omega ;;
  plt.subplot 223 ;; plt.loglog omega mag ;;
  '(mag, phase, omega) <- call_freqresp S omega ;;
  plt.subplot 224 ;; plt.loglog omega mag.

End Freqplot.

(** ** Concrete systems *)

(** A system known only through the triple its [freqresp] returns, of
    whatever shapes; it exposes no poles and no zeros. *)
Record black_box : Type := {
  bb_resp : list R -> list R * list R * list R
}.

#[export] Instance black_box_LinSys : LinSys black_box := {|
  poles := fun _ => [];
  zeros := fun _ => [];
  freqresp := bb_resp
|}.

(** A response with three magnitudes and two phases. *)
Definition ragged : black_box := {|
  bb_resp := fun omega => ([1; 1; 1], [0; 0], omega)
|}.

(** A system described by its poles, its zeros and its response at each
    frequency; [freqresp] hands the frequencies back unchanged. *)
Record pointwise : Type := {
  pw_poles : list np.complex;
  pw_zeros : list np.complex;
  pw_mag : R -> R;
  pw_phase : R -> R
}.

#[export] Instance pointwise_LinSys : LinSys pointwise := {|
  poles := pw_poles;
  zeros := pw_zeros;
  freqresp := fun s omega => (map (pw_mag s) omega, map (pw_phase s) omega, omega)
|}.

(** A static gain [k]: no poles, no zeros, magnitude [|k|] and phase 0 or
    pi at every frequency. *)
Record static_gain : Type := { gain : R }.

#[export] Instance static_gain_LinSys : LinSys static_gain := {|
  poles := fun _ => [];
  zeros := fun _ => [];
  freqresp := fun s omega =>
    (map (fun _ => Rabs (gain s)) omega,
     map (fun _ => if Rlt_dec (gain s) 0 then PI else 0) omega,
     omega)
|}.

Definition gain_of (a : operand static_gain) : R :=
  match a with
  | Scalar k => IZR k
  | System s => gain s
  end.

(** Static gains are closed under series connection and under feedback;
    [sign] is the sign with which the fed-back signal enters. *)
Definition static_gain_algebra (sign : R) : LinSysAlgebra static_gain := {|
  sys_mul := fun a b => {| gain := gain a * gain b |};
  feedback := fun a b =>
    {| gain := gain_of a / (1 - sign * gain_of a * gain_of b) |}
|}.



(** The system of the end-to-end scenario: poles at -1 and -10, no zeros,
    response 1/sqrt((1+w^2)(100+w^2)). *)
Definition two_pole : pointwise := {|
  pw_poles := [(-1, 0); (-10, 0)];
  pw_zeros := [];
  pw_mag := fun w => / sqrt ((1 + w * w) * (100 + w * w));
  pw_phase := fun w => - atan w - atan (w / 10)
|}.

(** An integrator 1/s: one pole at the origin. *)
Definition integrator : pointwise := {|
  pw_poles := [(0, 0)];
  pw_zeros := [];
  pw_mag := fun w => / w;
  pw_phase := fun _ => - (PI / 2)
|}.

(** ** Observations on logs and sweeps *)

(** The frequency vectors of the [freqresp] queries of a log, in order. *)
Definition queries {sys : Type} (log : list (call sys)) : list (list R) :=
  flat_map (fun c => match c with Freqresp _ omega => [omega] | Plt _ => [] end) log.

(** The drawing commands of a log, in order. *)
Definition drawn {sys : Type} (log : list (call sys)) : list plt_call :=
  flat_map (fun c => match c with Freqresp _ _ => [] | Plt p => [p] end) log.

(** The curves of a log, in order: the (x, y) data of every [semilogx],
    [loglog] and [plot] command. *)
Definition curves {sys : Type} (log : list (call sys)) : list (list R * list R) :=
  flat_map
    (fun p => match p with
              | semilogx x y | loglog x y | plot x y _ => [(x, y)]
              | _ => []
              end)
    (drawn log).

(** A computed sweep runs from [lo] (first sample) to [hi] (last sample). *)
Definition spans (r : result (list R)) (lo hi : R) : Prop :=
  exists sweep, r = inr sweep /\ hd 0 sweep = lo /\ last sweep 0 = hi.

(** * Properties *)

(** ** Real-number facts about decades *)

Lemma ln10_pos : 0 < ln 10.
Proof.
  rewrite <- ln_1. apply ln_increasing; lra.
Qed.

Lemma log10_1_one : np.log10_1 1 = 0.
Proof.
  unfold np.log10_1. rewrite ln_1. unfold Rdiv. apply Rmult_0_l.
Qed.

Lemma log10_1_ten : np.log10_1 10 = 1.
Proof.
  unfold np.log10_1. field. pose proof ln10_pos. lra.
Qed.

Lemma Rpower10_log10 (m : R) : 0 < m -> Rpower 10 (np.log10_1 m) = m.
Proof.
  intros Hm. unfold Rpower, np.log10_1.
  replace (ln m / ln 10 * ln 10) with (ln m).
  - now apply exp_ln.
  - field. pose proof ln10_pos. lra.
Qed.

Lemma Rpower10_mono (x y : R) : x <= y -> Rpower 10 x <= Rpower 10 y.
Proof.
  intros Hxy. apply Rle_Rpower; lra.
Qed.

Lemma Rpower10_m1 : Rpower 10 (-1) = / 10.
Proof.
  replace (-1) with (- (1)) by lra.
  rewrite Rpower_Ropp, Rpower_1; lra.
Qed.

Lemma Rpower10_1 : Rpower 10 1 = 10.
Proof.
  apply Rpower_1; lra.
Qed.

Lemma Rpower10_2 : Rpower 10 2 = 100.
Proof.
  replace 2 with (INR 2) by (simpl; lra).
  rewrite Rpower_pow by lra. simpl. lra.
Qed.

Lemma Rpower10_m2 : Rpower 10 (-2) = / 100.
Proof.
  replace (-2) with (- (2)) by lra.
  rewrite Rpower_Ropp, Rpower10_2. reflexivity.
Qed.

Lemma Rpower10_pred (x : R) : Rpower 10 (x - 1) = Rpower 10 x / 10.
Proof.
  unfold Rminus. rewrite Rpower_plus, Rpower_Ropp, Rpower10_1. reflexivity.
Qed.

Lemma Rpower10_succ (x : R) : Rpower 10 (x + 1) = Rpower 10 x * 10.
Proof.
  rewrite Rpower_plus, Rpower10_1. reflexivity.
Qed.

Lemma floor_le (x : R) : np.floor x <= x.
Proof.
  unfold np.floor. apply (Zfloor_bound x).
Qed.

Lemma ceil_ge (x : R) : x <= np.ceil x.
Proof.
  unfold np.ceil. apply (Zceil_bound x).
Qed.

Lemma floor_IZR (z : Z) : np.floor (IZR z) = IZR z.
Proof.
  unfold np.floor. now rewrite ZfloorZ.
Qed.

Lemma ceil_IZR (z : Z) : np.ceil (IZR z) = IZR z.
Proof.
  unfold np.ceil, Zceil. rewrite ZfloorNZ. f_equal. lia.
Qed.

Lemma abs1_nonneg (z : np.complex) : 0 <= np.abs1 z.
Proof.
  unfold np.abs1. apply sqrt_pos.
Qed.

Lemma abs1_real (x : R) : np.abs1 (x, 0) = Rabs x.
Proof.
  unfold np.abs1. simpl. rewrite Rmult_0_l, Rplus_0_r.
  rewrite <- (sqrt_Rsqr_abs x). reflexivity.
Qed.

(** ** Minimum and maximum of an array *)

Lemma fold_Rmin_le_init (t : list R) (x : R) : fold_left Rmin t x <= x.
Proof.
  revert x. induction t as [|a t IH]; intros x; simpl.
  - lra.
  - eapply Rle_trans; [apply IH | apply Rmin_l].
Qed.

Lemma fold_Rmin_le (t : list R) (x y : R) : In y (x :: t) -> fold_left Rmin t x <= y.
Proof.
  revert x. induction t as [|a t IH]; intros x Hy; simpl.
  - destruct Hy as [-> | []]. lra.
  - destruct Hy as [-> | [-> | Hy]].
    + eapply Rle_trans; [apply fold_Rmin_le_init | apply Rmin_l].
    + eapply Rle_trans; [apply fold_Rmin_le_init | apply Rmin_r].
    + apply IH. now right.
Qed.

Lemma fold_Rmax_ge_init (t : list R) (x : R) : x <= fold_left Rmax t x.
Proof.
  revert x. induction t as [|a t IH]; intros x; simpl.
  - lra.
  - eapply Rle_trans; [apply Rmax_l | apply IH].
Qed.

Lemma fold_Rmax_ge (t : list R) (x y : R) : In y (x :: t) -> y <= fold_left Rmax t x.
Proof.
  revert x. induction t as [|a t IH]; intros x Hy; simpl.
  - destruct Hy as [-> | []]. lra.
  - destruct Hy as [-> | [-> | Hy]].
    + eapply Rle_trans; [apply Rmax_l | apply fold_Rmax_ge_init].
    + eapply Rle_trans; [apply Rmax_r | apply fold_Rmax_ge_init].
    + apply IH. now right.
Qed.

(** ** The samples of [logspace] *)

Lemma logspace_hd (start stop : R) : hd 0 (sp.logspace start stop) = Rpower 10 start.
Proof.
  unfold sp.logspace, np.logspace.
  change 50%nat with (S (S 48)).
  unfold np.linspace. cbn [seq map app hd INR].
  f_equal. lra.
Qed.

Lemma logspace_last (start stop : R) : last (sp.logspace start stop) 0 = Rpower 10 stop.
Proof.
  unfold sp.logspace, np.logspace.
  change 50%nat with (S (S 48)).
  unfold np.linspace. rewrite map_app. cbn [map]. apply last_last.
Qed.

Lemma logspace_length (start stop : R) : length (sp.logspace start stop) = 50%nat.
Proof.
  unfold sp.logspace, np.logspace, np.linspace.
  rewrite length_map, length_app, length_map, length_seq. reflexivity.
Qed.

Lemma nth_map_in_range {A : Type} (f : A -> R) (l : list A) (d : A) (i : nat) :
  (i < length l)%nat -> nth i (map f l) 0 = f (nth i l d).
Proof.
  intros Hi. rewrite (nth_indep _ 0 (f d)) by (now rewrite length_map).
  apply map_nth.
Qed.

Lemma linspace_bounds (start stop x : R) :
  start <= stop -> In x (np.linspace start stop 50) -> start <= x <= stop.
Proof.
  intros Hle Hx. change 50%nat with (S (S 48)) in Hx.
  unfold np.linspace in Hx. apply in_app_or in Hx.
  destruct Hx as [Hx | [<- | []]]; [|lra].
  apply in_map_iff in Hx. destruct Hx as [i [<- Hi]].
  apply in_seq in Hi.
  assert (H0 : 0 <= INR i) by apply pos_INR.
  assert (H49 : INR i <= INR 49) by (apply le_INR; lia).
  set (n := INR (S 48)) in *.
  assert (Hn : n = 49) by (unfold n; rewrite S_INR; simpl; lra).
  change (INR 49) with n in H49. rewrite Hn in *.
  set (k := (stop - start) / 49).
  assert (Hk : 0 <= k) by (unfold k; lra).
  assert (Hd : stop - start = 49 * k) by (unfold k; lra).
  nra.
Qed.

Lemma logspace_bounds (start stop w : R) :
  start <= stop -> In w (sp.logspace start stop) ->
  Rpower 10 start <= w <= Rpower 10 stop.
Proof.
  intros Hle Hw. unfold sp.logspace, np.logspace in Hw.
  apply in_map_iff in Hw. destruct Hw as [x [<- Hx]].
  apply linspace_bounds in Hx; [|assumption].
  split; apply Rpower10_mono; lra.
Qed.

(** The samples are the powers of ten of 50 evenly spaced exponents. *)
Lemma logspace_nth (start stop : R) (i : nat) :
  (i <= 49)%nat ->
  nth i (sp.logspace start stop) 0 =
  Rpower 10 (start + INR i * ((stop - start) / 49)).
Proof.
  intros Hi. unfold sp.logspace, np.logspace.
  rewrite (nth_map_in_range _ _ 0)
    by (change 50%nat with (S (S 48)); unfold np.linspace;
        rewrite length_app, length_map, length_seq; cbn; lia).
  f_equal. change 50%nat with (S (S 48)). unfold np.linspace.
  assert (H49 : INR (S 48) = 49) by (rewrite S_INR; simpl; lra).
  destruct (Nat.eq_dec i 49) as [-> | Hne].
  - rewrite app_nth2 by (rewrite length_map, length_seq; lia).
    rewrite length_map, length_seq. cbn [Nat.sub nth].
    change 49%nat with (S 48). rewrite H49. field.
  - rewrite app_nth1 by (rewrite length_map, length_seq; lia).
    rewrite (nth_indep _ 0 (INR 0 * ((stop - start) / INR (S 48)) + start))
      by (rewrite length_map, length_seq; lia).
    rewrite (map_nth (fun k => INR k * ((stop - start) / INR (S 48)) + start)).
    rewrite seq_nth by lia. rewrite H49. cbn [Nat.add]. lra.
Qed.

(** ** The default frequency range (lines 93-112) *)

Section DefaultRange.

Context {sys : Type} `{LinSys sys}.

(** The features are the pole and zero magnitudes of the systems, in the
    order of the systems, poles before zeros. *)
Lemma features_of_flat_map (syslist : list sys) :
  features_of syslist =
  flat_map (fun s => np.abs (poles s) ++ np.abs (zeros s)) syslist.
Proof.
  unfold features_of.
  enough (G : forall acc,
             fold_left
               (fun features s =>
                  np.concatenate (np.concatenate features (np.abs (poles s)))
                    (np.abs (zeros s))) syslist acc
             = acc ++ flat_map (fun s => np.abs (poles s) ++ np.abs (zeros s)) syslist)
    by apply (G []).
  induction syslist as [|s rest IH]; intros acc; simpl.
  - now rewrite app_nil_r.
  - rewrite IH. unfold np.concatenate. now rewrite <- !app_assoc.
Qed.

Lemma features_of_In (syslist : list sys) (m : R) :
  In m (features_of syslist) <->
  exists s z, In s syslist /\ In z (poles s ++ zeros s) /\ m = np.abs1 z.
Proof.
  rewrite features_of_flat_map, in_flat_map. unfold np.abs. split.
  - intros [s [Hs Hm]]. rewrite <- map_app in Hm.
    apply in_map_iff in Hm. destruct Hm as [z [<- Hz]]. now exists s, z.
  - intros [s [z [Hs [Hz ->]]]]. exists s. split; [assumption|].
    rewrite <- map_app. now apply in_map.
Qed.

Lemma features_nonneg (syslist : list sys) (m : R) :
  In m (features_of syslist) -> 0 <= m.
Proof.
  intros Hm. apply features_of_In in Hm.
  destruct Hm as [s [z [_ [_ ->]]]]. apply abs1_nonneg.
Qed.

Lemma ne0_true (x : R) : np.ne0 x = true <-> x <> 0.
Proof.
  unfold np.ne0. destruct (Req_dec_T x 0); split; intros; congruence.
Qed.

(** With a non-zero feature, the range is one decade beyond the floor of
    the smallest and the ceiling of the largest logarithm. *)
Lemma default_omega_features (syslist : list sys) (f : R) (fs : list R) :
  np.mask_ne0 (features_of syslist) = f :: fs ->
  default_omega syslist =
  inr (sp.logspace
         (np.floor (fold_left Rmin (map np.log10_1 fs) (np.log10_1 f)) - 1)
         (np.ceil (fold_left Rmax (map np.log10_1 fs) (np.log10_1 f)) + 1)).
Proof.
  intros E. unfold default_omega. rewrite E. reflexivity.
Qed.

(** Without one, the features are replaced by [[1]]. *)
Lemma default_omega_fallback (syslist : list sys) :
  np.mask_ne0 (features_of syslist) = [] ->
  default_omega syslist = inr (sp.logspace (-1) 1).
Proof.
  intros E. unfold default_omega. rewrite E.
  cbn [np.log10 map np.min np.max fold_left].
  rewrite log10_1_one.
  change 0 with (IZR 0). rewrite floor_IZR, ceil_IZR.
  do 2 f_equal; lra.
Qed.

(** The selector never raises: [np.min] and [np.max] see at least one
    feature. *)
Lemma default_omega_total (syslist : list sys) :
  exists sweep, default_omega syslist = inr sweep.
Proof.
  destruct (np.mask_ne0 (features_of syslist)) as [|f fs] eqn:E.
  - eexists. exact (default_omega_fallback _ E).
  - eexists. exact (default_omega_features _ _ _ E).
Qed.

(** C1. Whenever the pooled pole and zero magnitudes of the systems
    contain a non-zero value [m], the sweep [bode] derives when [omega]
    is absent starts at or below [m/10] and ends at or above [m*10]; its
    first and last samples bound every sample. *)
Theorem bode_default_sweep_decade_margin (syslist : list sys) (m : R) :
  In m (features_of syslist) -> m <> 0 ->
  exists sweep,
    bode_sweep syslist None = inr sweep /\
    (forall w, In w sweep -> hd 0 sweep <= w <= last sweep 0) /\
    hd 0 sweep <= m / 10 /\
    m * 10 <= last sweep 0.
Proof.
  intros Hin Hm0.
  assert (Hpos : 0 < m) by (pose proof (features_nonneg _ _ Hin); lra).
  assert (Hmask : In m (np.mask_ne0 (features_of syslist))).
  { apply filter_In. split; [assumption | now apply ne0_true]. }
  destruct (np.mask_ne0 (features_of syslist)) as [|f fs] eqn:E;
    [contradiction|].
  assert (Hlog : In (np.log10_1 m) (np.log10_1 f :: map np.log10_1 fs)).
  { change (In (np.log10_1 m) (map np.log10_1 (f :: fs))). now apply in_map. }
  pose proof (fold_Rmin_le _ _ _ Hlog) as Hlo.
  pose proof (fold_Rmax_ge _ _ _ Hlog) as Hhi.
  simpl bode_sweep. rewrite (default_omega_features _ _ _ E).
  set (lo := fold_left Rmin _ _) in *. set (hi := fold_left Rmax _ _) in *.
  pose proof (floor_le lo) as Hfl. pose proof (ceil_ge hi) as Hce.
  eexists. split; [reflexivity|].
  rewrite logspace_hd, logspace_last.
  split; [|split].
  - intros w Hw. apply logspace_bounds; [lra | assumption].
  - rewrite Rpower10_pred.
    pose proof (Rpower10_log10 m Hpos) as Hexp.
    pose proof (Rpower10_mono (np.floor lo) (np.log10_1 m)). lra.
  - rewrite Rpower10_succ.
    pose proof (Rpower10_log10 m Hpos) as Hexp.
    pose proof (Rpower10_mono (np.log10_1 m) (np.ceil hi)). lra.
Qed.

(** C4. When every pole and zero of every system has magnitude zero (or
    there is none), the sweep [bode] derives is the decade bracket of the
    single feature 1: [logspace(-1, 1)], 50 samples 10^(-1 + 2i/49) from
    0.1 to 10 rad/s. *)
Theorem bode_default_sweep_fallback (syslist : list sys) :
  (forall m, In m (features_of syslist) -> m = 0) ->
  bode_sweep syslist None = inr (sp.logspace (-1) 1) /\
  spans (bode_sweep syslist None) (1 / 10) 10 /\
  length (sp.logspace (-1) 1) = 50%nat /\
  (forall i, (i <= 49)%nat ->
     nth i (sp.logspace (-1) 1) 0 = Rpower 10 (-1 + INR i * (2 / 49))).
Proof.
  intros Hall.
  assert (E : np.mask_ne0 (features_of syslist) = []).
  { unfold np.mask_ne0.
    destruct (filter np.ne0 (features_of syslist)) as [|f fs] eqn:E;
      [reflexivity|].
    assert (Hf : In f (filter np.ne0 (features_of syslist)))
      by (rewrite E; now left).
    apply filter_In in Hf. destruct Hf as [Hf Hne].
    apply ne0_true in Hne. now apply Hall in Hf. }
  simpl bode_sweep. rewrite (default_omega_fallback _ E).
  split; [reflexivity|]. split; [|split].
  - exists (sp.logspace (-1) 1). split; [reflexivity|].
    rewrite logspace_hd, logspace_last, Rpower10_m1, Rpower10_1. lra.
  - apply logspace_length.
  - intros i Hi. rewrite (logspace_nth _ _ i Hi). f_equal. lra.
Qed.

(** The scenario of poles at -1 and -10: the features are 1 and 10, their
    logarithms 0 and 1. *)
Lemma default_omega_two_poles (s : sys) :
  poles s = [(-1, 0); (-10, 0)] -> zeros s = [] ->
  default_omega [s] = inr (sp.logspace (-1) 2).
Proof.
  intros Hp Hz.
  assert (E : np.mask_ne0 (features_of [s]) = [1; 10]).
  { rewrite features_of_flat_map. simpl. rewrite Hp, Hz. simpl.
    rewrite !abs1_real.
    replace (Rabs (-1)) with 1 by (rewrite Rabs_left; lra).
    replace (Rabs (-10)) with 10 by (rewrite Rabs_left; lra).
    assert (H1 : np.ne0 1 = true) by (apply ne0_true; lra).
    assert (H10 : np.ne0 10 = true) by (apply ne0_true; lra).
    now rewrite H1, H10. }
  rewrite (default_omega_features _ _ _ E).
  cbn [map fold_left]. rewrite log10_1_one, log10_1_ten.
  rewrite Rmin_left, Rmax_right by lra.
  change 0 with (IZR 0). change 1 with (IZR 1) at 2.
  rewrite floor_IZR, ceil_IZR.
  replace (IZR 0 - 1) with (-1) by lra. replace (IZR 1 + 1) with 2 by lra.
  reflexivity.
Qed.

(** C3, as the code has it. A system with poles at -1 and -10 and no
    zeros gets, when no sweep is passed, the sweep [logspace(-1, 2)]: from
    0.1 rad/s (one decade below 1) to 100 rad/s (one decade above 10). *)
Theorem bode_default_sweep_two_poles (s : sys) :
  poles s = [(-1, 0); (-10, 0)] -> zeros s = [] ->
  bode_sweep [s] None = inr (sp.logspace (-1) 2) /\
  spans (bode_sweep [s] None) (1 / 10) 100.
Proof.
  intros Hp Hz. simpl bode_sweep. rewrite (default_omega_two_poles s Hp Hz).
  split; [reflexivity|].
  exists (sp.logspace (-1) 2). split; [reflexivity|].
  rewrite logspace_hd, logspace_last, Rpower10_m1, Rpower10_2. lra.
Qed.

End DefaultRange.

(** The scenario system has the magnitude 10 among its features. *)
Lemma two_pole_feature_10 : In 10 (features_of [two_pole]).
Proof.
  apply features_of_In. exists two_pole, (-10, 0).
  split; [now left|]. split; [simpl; auto|].
  rewrite abs1_real, Rabs_left; lra.
Qed.

Lemma bode_default_sweep_decade_margin_witness :
  exists sweep,
    bode_sweep [two_pole] None = inr sweep /\
    (forall w, In w sweep -> hd 0 sweep <= w <= last sweep 0) /\
    hd 0 sweep <= 10 / 10 /\
    10 * 10 <= last sweep 0.
Proof.
  apply (bode_default_sweep_decade_margin [two_pole] 10).
  - exact two_pole_feature_10.
  - lra.
Defined.

(** The integrator's only feature is the pole at the origin. *)
Lemma integrator_features : forall m, In m (features_of [integrator]) -> m = 0.
Proof.
  intros m Hm. apply features_of_In in Hm.
  destruct Hm as [s [z [[<- | []] [Hz ->]]]].
  simpl in Hz. destruct Hz as [<- | []].
  rewrite abs1_real. apply Rabs_R0.
Qed.

Lemma bode_default_sweep_fallback_witness :
  bode_sweep [integrator] None = inr (sp.logspace (-1) 1) /\
  spans (bode_sweep [integrator] None) (1 / 10) 10 /\
  length (sp.logspace (-1) 1) = 50%nat /\
  (forall i, (i <= 49)%nat ->
     nth i (sp.logspace (-1) 1) 0 = Rpower 10 (-1 + INR i * (2 / 49))).
Proof.
  apply (bode_default_sweep_fallback [integrator]).
  exact integrator_features.
Defined.

Lemma bode_default_sweep_two_poles_witness :
  bode_sweep [two_pole] None = inr (sp.logspace (-1) 2) /\
  spans (bode_sweep [two_pole] None) (1 / 10) 100.
Proof.
  apply (bode_default_sweep_two_poles two_pole); reflexivity.
Defined.

(** C3, as stated, fails: the sweep derived for poles at -1 and -10 does not
    start at 0.01 rad/s. Its first sample is 0.1 rad/s, a full decade
    above. *)
Lemma bode_default_sweep_two_poles_not_from_001 :
  ~ spans (bode_sweep [two_pole] None) (1 / 100) 100.
Proof.
  intros [sweep [E [Hlo _]]].
  simpl bode_sweep in E.
  rewrite default_omega_two_poles in E by reflexivity.
  injection E as <-.
  rewrite logspace_hd, Rpower10_m1 in Hlo. lra.
Qed.

(** ** Logs *)

Lemma queries_app {sys : Type} (l1 l2 : list (call sys)) :
  queries (l1 ++ l2) = queries l1 ++ queries l2.
Proof.
  unfold queries. apply flat_map_app.
Qed.

Lemma drawn_app {sys : Type} (l1 l2 : list (call sys)) :
  drawn (l1 ++ l2) = drawn l1 ++ drawn l2.
Proof.
  unfold drawn. apply flat_map_app.
Qed.

Lemma curves_app {sys : Type} (l1 l2 : list (call sys)) :
  curves (l1 ++ l2) = curves l1 ++ curves l2.
Proof.
  unfold curves. rewrite drawn_app. apply flat_map_app.
Qed.

(** Unfolds the monad and the pyplot wrappers in the goal. *)
Ltac run_M :=
  unfold call_freqresp, plt.subplot, plt.semilogx, plt.loglog, plt.plot,
         plt.ylabel, plt.xlabel, plt.grid, plt.hold;
  cbv beta iota delta [bind ret emit lift fst snd].

(** ** The Bode renderer *)

Section Bode.

Context {sys : Type} `{LinSys sys}.
Variable unwrap : list R -> R -> list R.

(** One pass through the loop body: the query, then the fourteen drawing
    calls, and the value left in [omega]. *)
Lemma bode_body_run (dB Hz : bool) (s : sys) (omega : list R) (t : list (call sys)) :
  let '(mag, phase, omega') := freqresp s omega in
  let x := if Hz then np.over omega' (2 * PI) else omega' in
  let y := if dB then np.scalar_times 20 (np.log10 mag) else mag in
  let ph := unwrap (np.over (np.times phase 180) PI) 360 in
  bode_body unwrap dB Hz s omega t =
  (inr x,
   t ++ [Freqresp s omega;
         Plt (subplot 211);
         Plt (if dB then semilogx x y else loglog x y);
         Plt (ylabel (if dB then "Magnitude (dB)" else "Magnitude")%string);
         Plt (grid true None);
         Plt (grid true (Some "minor"%string));
         Plt (hold true);
         Plt (subplot 212);
         Plt (semilogx x ph);
         Plt (hold true);
         Plt (grid true None);
         Plt (grid true (Some "minor"%string));
         Plt (ylabel "Phase (deg)");
         Plt (xlabel (if Hz then "Frequency (Hz)" else "Frequency (rad/sec)")%string)]).
Proof.
  destruct (freqresp s omega) as [[mag phase] omega'] eqn:E.
  unfold bode_body. run_M. rewrite E.
  destruct dB, Hz; run_M; rewrite <- !app_assoc; reflexivity.
Qed.

Lemma bode_body_result (dB Hz : bool) (s : sys) (omega : list R) (t : list (call sys)) :
  fst (bode_body unwrap dB Hz s omega t) =
  inr (if Hz then np.over (snd (freqresp s omega)) (2 * PI)
       else snd (freqresp s omega)).
Proof.
  pose proof (bode_body_run dB Hz s omega t) as Hrun.
  destruct (freqresp s omega) as [[mag phase] omega'].
  cbv zeta in Hrun. now rewrite Hrun.
Qed.

Lemma bode_body_queries (dB Hz : bool) (s : sys) (omega : list R) (t : list (call sys)) :
  queries (snd (bode_body unwrap dB Hz s omega t)) = queries t ++ [omega].
Proof.
  pose proof (bode_body_run dB Hz s omega t) as Hrun.
  destruct (freqresp s omega) as [[mag phase] omega'].
  cbv zeta in Hrun. rewrite Hrun. cbn [snd].
  now rewrite queries_app.
Qed.

Lemma bode_body_curves (dB Hz : bool) (s : sys) (omega : list R) (t : list (call sys)) :
  let x := if Hz then np.over (snd (freqresp s omega)) (2 * PI)
           else snd (freqresp s omega) in
  let mag := fst (fst (freqresp s omega)) in
  let phase := snd (fst (freqresp s omega)) in
  curves (snd (bode_body unwrap dB Hz s omega t)) =
  curves t ++
  [(x, if dB then np.scalar_times 20 (np.log10 mag) else mag);
   (x, unwrap (np.over (np.times phase 180) PI) 360)].
Proof.
  pose proof (bode_body_run dB Hz s omega t) as Hrun.
  destruct (freqresp s omega) as [[mag phase] omega'].
  cbv zeta in Hrun |- *. rewrite Hrun. cbn [fst snd].
  rewrite curves_app. f_equal. now destruct dB.
Qed.

(** The loop runs to its end: nothing in it raises. *)
Lemma bode_loop_ok (dB Hz : bool) (syslist : list sys) :
  forall omega t, fst (bode_loop unwrap dB Hz syslist omega t) = inr tt.
Proof.
  induction syslist as [|s rest IH]; intros omega t; [reflexivity|].
  cbn [bode_loop]. unfold bind.
  pose proof (bode_body_result dB Hz s omega t) as Hres.
  destruct (bode_body unwrap dB Hz s omega t) as [[e | w] t'];
    cbn [fst] in Hres; [discriminate|].
  apply IH.
Qed.

(** The frequency vector each system is queried at, when every system
    hands back the frequencies it was given: the [k]-th system (from 0)
    sees the sweep after [k] passes through line 117. *)
Lemma bode_loop_queries (dB Hz : bool) :
  (forall s w, snd (freqresp s w) = w) ->
  forall syslist omega t,
    queries (snd (bode_loop unwrap dB Hz syslist omega t)) =
    queries t ++
    map (fun k => Nat.iter k (fun w => if Hz then np.over w (2 * PI) else w) omega)
        (seq 0 (length syslist)).
Proof.
  intros Hecho.
  induction syslist as [|s rest IH]; intros omega t.
  - cbn. now rewrite app_nil_r.
  - cbn [bode_loop]. unfold bind.
    pose proof (bode_body_result dB Hz s omega t) as Hres.
    pose proof (bode_body_queries dB Hz s omega t) as Hq.
    destruct (bode_body unwrap dB Hz s omega t) as [[e | w] t'];
      cbn [fst snd] in Hres, Hq; [discriminate|].
    injection Hres as ->. rewrite Hecho.
    rewrite IH, Hq, <- app_assoc. f_equal.
    cbn [length seq map Nat.iter nat_rect app]. f_equal.
    rewrite <- seq_shift, map_map.
    apply map_ext. intros k. now rewrite Nat.iter_succ_r.
Qed.

(** With frequencies shown in rad/sec, every system is queried at the
    sweep itself. *)
Lemma bode_rad_queries_same_sweep (dB : bool) :
  (forall s w, snd (freqresp s w) = w) ->
  forall syslist omega t,
    queries (snd (bode_loop unwrap dB false syslist omega t)) =
    queries t ++ repeat omega (length syslist).
Proof.
  intros Hecho syslist omega t.
  rewrite (bode_loop_queries dB false Hecho). f_equal.
  generalize 0%nat. induction (length syslist) as [|n IH]; intros k0.
  - reflexivity.
  - cbn [seq map repeat]. f_equal; [|apply IH].
    clear. induction k0 as [|k IH]; [reflexivity|].
    cbn [Nat.iter nat_rect]. exact IH.
Qed.

(** C10. Whatever the systems, the sweep and the flags, [bode] completes
    and returns the pair (211, 212). *)
Theorem bode_returns_211_212
    (syslist : sysarg sys) (omega : option (list R)) (dB Hz : bool)
    (t : list (call sys)) :
  fst (bode unwrap syslist omega dB Hz t) = inr (211%Z, 212%Z).
Proof.
  unfold bode, bind, lift.
  assert (Hsweep : exists w, bode_sweep (as_syslist syslist) omega = inr w).
  { destruct omega as [w|]; [now exists w | apply default_omega_total]. }
  destruct Hsweep as [w ->].
  pose proof (bode_loop_ok dB Hz (as_syslist syslist) w t) as Hok.
  destruct (bode_loop unwrap dB Hz (as_syslist syslist) w t) as [[e | []] t'];
    cbn [fst] in Hok; [discriminate | reflexivity].
Qed.

(** C7. With the dB flag set, the magnitude curve [bode] draws for a
    system is, sample by sample, 20 times the base-10 logarithm of the
    magnitude the system reported: for a positive magnitude [m] the drawn
    value [d] is [20 * (ln m / ln 10)], the number with [10^(d/20) = m];
    the conversion is strictly increasing on positive magnitudes; and the
    magnitudes 0.1, 1, 10 are drawn as -20, 0, 20. *)
Theorem bode_dB_conversion (Hz : bool) (s : sys) (omega : list R) :
  let mag := fst (fst (freqresp s omega)) in
  exists x mag_dB phase_deg,
    curves (snd (bode_body unwrap true Hz s omega [])) =
      [(x, mag_dB); (x, phase_deg)] /\
    length mag_dB = length mag /\
    (forall i, (i < length mag)%nat -> 0 < nth i mag 0 ->
       nth i mag_dB 0 = 20 * (ln (nth i mag 0) / ln 10) /\
       Rpower 10 (nth i mag_dB 0 / 20) = nth i mag 0) /\
    (forall i j, (i < length mag)%nat -> (j < length mag)%nat ->
       0 < nth i mag 0 < nth j mag 0 -> nth i mag_dB 0 < nth j mag_dB 0) /\
    (mag = [1 / 10; 1; 10] -> mag_dB = [-20; 0; 20]).
Proof.
  intros mag. rewrite bode_body_curves. cbn [curves drawn flat_map app].
  fold mag. do 3 eexists. split; [reflexivity|].
  assert (Hnth : forall i, (i < length mag)%nat ->
            nth i (np.scalar_times 20 (np.log10 mag)) 0 =
            20 * np.log10_1 (nth i mag 0)).
  { intros i Hi. unfold np.scalar_times, np.log10. rewrite map_map.
    rewrite (nth_indep _ 0 (20 * np.log10_1 0))
      by (now rewrite length_map).
    apply (map_nth (fun m => 20 * np.log10_1 m)). }
  split; [|split; [|split]].
  - unfold np.scalar_times, np.log10. now rewrite !length_map.
  - intros i Hi Hpos. rewrite (Hnth i Hi). split; [reflexivity|].
    replace (20 * np.log10_1 (nth i mag 0) / 20)
      with (np.log10_1 (nth i mag 0)) by lra.
    now apply Rpower10_log10.
  - intros i j Hi Hj [Hpos Hlt]. rewrite (Hnth i Hi), (Hnth j Hj).
    unfold np.log10_1. pose proof ln10_pos as H10.
    pose proof (ln_increasing _ _ Hpos Hlt) as Hln.
    apply Rmult_lt_compat_l; [lra|].
    unfold Rdiv. apply Rmult_lt_compat_r; [now apply Rinv_0_lt_compat | exact Hln].
  - intros ->. unfold np.scalar_times, np.log10. cbn [map].
    rewrite log10_1_one, log10_1_ten.
    replace (np.log10_1 (1 / 10)) with (-1).
    + repeat f_equal; lra.
    + unfold np.log10_1. replace (1 / 10) with (/ 10) by lra.
      rewrite ln_Rinv by lra. field. pose proof ln10_pos. lra.
Qed.

(** C8. With the Hz flag set, the frequency axis [bode] draws for a
    system is, sample by sample, the frequency in rad/sec divided by
    2 pi; the frequency 2 pi rad/sec is drawn at 1 Hz. *)
Theorem bode_Hz_conversion (dB : bool) (s : sys) (omega : list R) :
  let rad := snd (freqresp s omega) in
  exists freq_Hz mag phase_deg,
    curves (snd (bode_body unwrap dB true s omega [])) =
      [(freq_Hz, mag); (freq_Hz, phase_deg)] /\
    length freq_Hz = length rad /\
    (forall i, (i < length rad)%nat ->
       nth i freq_Hz 0 = nth i rad 0 / (2 * PI)) /\
    (rad = [2 * PI] -> freq_Hz = [1]).
Proof.
  intros rad. rewrite bode_body_curves. cbn [curves drawn flat_map app].
  fold rad. do 3 eexists. split; [reflexivity|].
  split; [|split].
  - unfold np.over. now rewrite length_map.
  - intros i Hi. unfold np.over.
    rewrite (nth_indep _ 0 (0 / (2 * PI))) by (now rewrite length_map).
    apply (map_nth (fun w => w / (2 * PI))).
  - intros ->. unfold np.over. cbn [map]. f_equal.
    field. pose proof PI_RGT_0. lra.
Qed.

End Bode.

Lemma bode_dB_conversion_witness :
  exists x mag_dB phase_deg,
    curves (snd (bode_body (fun a _ => a) true false
                   {| pw_poles := []; pw_zeros := [];
                      pw_mag := fun w => w; pw_phase := fun _ => 0 |}
                   [1 / 10; 1; 10] [])) =
      [(x, mag_dB); (x, phase_deg)] /\
    mag_dB = [-20; 0; 20].
Proof.
  destruct (bode_dB_conversion (fun a _ => a) false
              {| pw_poles := []; pw_zeros := [];
                 pw_mag := fun w => w; pw_phase := fun _ => 0 |}
              [1 / 10; 1; 10])
    as [x [mag_dB [phase_deg [Hc [_ [_ [_ Hv]]]]]]].
  exists x, mag_dB, phase_deg. split; [exact Hc | apply Hv; reflexivity].
Defined.

Lemma bode_Hz_conversion_witness :
  exists freq_Hz mag phase_deg,
    curves (snd (bode_body (fun a _ => a) false true integrator [2 * PI] [])) =
      [(freq_Hz, mag); (freq_Hz, phase_deg)] /\
    freq_Hz = [1].
Proof.
  destruct (bode_Hz_conversion (fun a _ => a) false integrator [2 * PI])
    as [f [mag [phase_deg [Hc [_ [_ Hv]]]]]].
  exists f, mag, phase_deg. split; [exact Hc | apply Hv; reflexivity].
Defined.

(** C9 at a failing input. Two systems that hand back the frequencies they
    are given, the sweep [[2 pi]] and the Hz flag set: the first system is
    queried at 2 pi rad/sec, the second at 1, the sweep after its
    conversion to Hz for display. *)
Theorem bode_Hz_changes_later_queries (unwrap : list R -> R -> list R) (dB : bool) :
  queries (snd (bode unwrap (Many [integrator; two_pole]) (Some [2 * PI]) dB true []))
  = [[2 * PI]; [1]].
Proof.
  unfold bode, bind, lift. cbn [as_syslist bode_sweep].
  pose proof (bode_loop_ok unwrap dB true [integrator; two_pole] [2 * PI] []) as Hok.
  pose proof (@bode_loop_queries pointwise _ unwrap dB true (fun s w => eq_refl)
                [integrator; two_pole] [2 * PI] []) as Hq.
  destruct (bode_loop unwrap dB true [integrator; two_pole] [2 * PI] [])
    as [[e | []] t']; cbn [fst snd] in *; [discriminate|].
  unfold ret. cbn [snd]. rewrite Hq. cbn. unfold np.over. cbn [map].
  repeat f_equal. field. pose proof PI_RGT_0. lra.
Qed.

(** ** The Nyquist renderer *)

Lemma multiply_same_length (a b : list R) :
  length a = length b ->
  np.multiply a b = inr (map (fun p => fst p * snd p) (combine a b)).
Proof.
  intros E. unfold np.multiply. now rewrite E, Nat.eqb_refl.
Qed.

Lemma nth_product (a b : list R) (i : nat) :
  length a = length b -> (i < length a)%nat ->
  nth i (map (fun p => fst p * snd p) (combine a b)) 0 = nth i a 0 * nth i b 0.
Proof.
  intros E Hi.
  rewrite (nth_map_in_range _ _ (0, 0))
    by (rewrite length_combine, <- E, Nat.min_id; exact Hi).
  now rewrite combine_nth.
Qed.

Section Nyquist.

Context {sys : Type} `{LinSys sys}.

(** C6. For a response whose magnitude and phase have one length,
    [nyquist] queries the system once and draws three things: the primary
    curve, whose point [i] is (mag_i cos phase_i, mag_i sin phase_i); the
    mirror curve, whose point [i] has the same abscissa and the opposite
    ordinate; and a marker at (-1, 0). *)
Theorem nyquist_primary_and_mirror
    (s : sys) (omega : option (list R)) (t : list (call sys)) :
  let w := fixed_sweep omega in
  let mag := fst (fst (freqresp s w)) in
  let phase := snd (fst (freqresp s w)) in
  length mag = length phase ->
  exists x y mirror,
    nyquist s omega t =
      (inr tt,
       t ++ [Freqresp s w; Plt (plot x y "-"); Plt (plot x mirror "--");
             Plt (plot [-1] [0] "+k")]) /\
    length x = length mag /\ length y = length mag /\
    length mirror = length mag /\
    forall i, (i < length mag)%nat ->
      nth i x 0 = nth i mag 0 * cos (nth i phase 0) /\
      nth i y 0 = nth i mag 0 * sin (nth i phase 0) /\
      nth i mirror 0 = - nth i y 0.
Proof.
  intros w mag phase Hlen.
  assert (Hc : length mag = length (sp.cos phase))
    by (unfold sp.cos, np.cos; now rewrite length_map).
  assert (Hs : length mag = length (sp.sin phase))
    by (unfold sp.sin, np.sin; now rewrite length_map).
  exists (map (fun p => fst p * snd p) (combine mag (sp.cos phase))),
         (map (fun p => fst p * snd p) (combine mag (sp.sin phase))),
         (np.negative (map (fun p => fst p * snd p) (combine mag (sp.sin phase)))).
  split; [|split; [|split; [|split]]].
  - unfold nyquist. fold w. run_M.
    subst mag phase. destruct (freqresp s w) as [[mag phase] w'].
    cbn [fst snd] in *. unfold sp.multiply.
    rewrite (multiply_same_length _ _ Hc), (multiply_same_length _ _ Hs).
    rewrite <- !app_assoc. reflexivity.
  - rewrite length_map, length_combine, <- Hc. apply Nat.min_id.
  - rewrite length_map, length_combine, <- Hs. apply Nat.min_id.
  - unfold np.negative.
    rewrite !length_map, length_combine, <- Hs. apply Nat.min_id.
  - intros i Hi.
    unfold np.negative. rewrite (nth_map_in_range Ropp _ 0)
      by (rewrite length_map, length_combine, <- Hs, Nat.min_id; exact Hi).
    rewrite !nth_product by assumption.
    unfold sp.cos, sp.sin, np.cos, np.sin.
    rewrite (nth_map_in_range Rtrigo_def.cos _ 0) by lia.
    rewrite (nth_map_in_range Rtrigo_def.sin _ 0) by lia.
    repeat split; reflexivity.
Qed.

End Nyquist.

Lemma nyquist_primary_and_mirror_witness :
  exists x y mirror,
    nyquist two_pole (Some [1; 10]) [] =
      (inr tt,
       [] ++ [Freqresp two_pole [1; 10]; Plt (plot x y "-");
              Plt (plot x mirror "--"); Plt (plot [-1] [0] "+k")]) /\
    length x = 2%nat /\ length y = 2%nat /\ length mirror = 2%nat /\
    forall i, (i < 2)%nat ->
      nth i x 0 = nth i (map (pw_mag two_pole) [1; 10]) 0
                  * cos (nth i (map (pw_phase two_pole) [1; 10]) 0) /\
      nth i y 0 = nth i (map (pw_mag two_pole) [1; 10]) 0
                  * sin (nth i (map (pw_phase two_pole) [1; 10]) 0) /\
      nth i mirror 0 = - nth i y 0.
Proof.
  exact (nyquist_primary_and_mirror two_pole (Some [1; 10]) [] eq_refl).
Defined.

(** The first frequency-response query of [nyquist] is at its sweep, also
    when the drawing that follows raises. *)
Lemma nyquist_first_query {sys : Type} `{LinSys sys}
    (s : sys) (omega : option (list R)) :
  hd_error (queries (snd (nyquist s omega []))) = Some (fixed_sweep omega).
Proof.
  unfold nyquist. run_M.
  destruct (freqresp s (fixed_sweep omega)) as [[mag phase] w'].
  destruct (sp.multiply mag (sp.cos phase)) as [e | x]; [reflexivity|].
  destruct (sp.multiply mag (sp.sin phase)) as [e | y]; reflexivity.
Qed.

(** ** The Gang of Four *)

Section GangOfFour.

Context {sys : Type} `{LinSys sys} `{LinSysAlgebra sys}.

(** The log of one call: four queries, each followed by its subplot
    selection and its log-log curve. *)
Lemma gangof4_log (P C : sys) (omega : option (list R)) (t : list (call sys)) :
  let L := sys_mul P C in
  let S := feedback (Scalar 1) (System L) in
  let T := sys_mul L S in
  let w0 := fixed_sweep omega in
  let r1 := freqresp T w0 in
  let r2 := freqresp (sys_mul P S) (snd r1) in
  let r3 := freqresp (sys_mul C S) (snd r2) in
  let r4 := freqresp S (snd r3) in
  gangof4 P C omega t =
    (inr tt,
     t ++ [Freqresp T w0;
           Plt (subplot 221); Plt (loglog (snd r1) (fst (fst r1)));
           Freqresp (sys_mul P S) (snd r1);
           Plt (subplot 222); Plt (loglog (snd r2) (fst (fst r2)));
           Freqresp (sys_mul C S) (snd r2);
           Plt (subplot 223); Plt (loglog (snd r3) (fst (fst r3)));
           Freqresp S (snd r3);
           Plt (subplot 224); Plt (loglog (snd r4) (fst (fst r4)))]).
Proof.
  intros L S T w0 r1 r2 r3 r4.
  unfold gangof4. fold L. fold S. fold T. fold w0. run_M.
  subst r4 r3 r2 r1.
  destruct (freqresp T w0) as [[mag1 ph1] w1]. cbn [fst snd].
  destruct (freqresp (sys_mul P S) w1) as [[mag2 ph2] w2]. cbn [fst snd].
  destruct (freqresp (sys_mul C S) w2) as [[mag3 ph3] w3]. cbn [fst snd].
  destruct (freqresp S w3) as [[mag4 ph4] w4]. cbn [fst snd].
  rewrite <- !app_assoc. reflexivity.
Qed.

Lemma gangof4_run (P C : sys) (omega : option (list R)) (t : list (call sys)) :
  exists rest,
    gangof4 P C omega t =
    (inr tt,
     t ++ Freqresp (sys_mul (sys_mul P C)
                      (feedback (Scalar 1) (System (sys_mul P C))))
                   (fixed_sweep omega) :: rest).
Proof.
  eexists. apply gangof4_log.
Qed.

Lemma gangof4_first_query (P C : sys) (omega : option (list R)) :
  hd_error (queries (snd (gangof4 P C omega []))) = Some (fixed_sweep omega).
Proof.
  destruct (gangof4_run P C omega []) as [rest ->]. reflexivity.
Qed.

End GangOfFour.





(** ** The default sweep of [nyquist] and [gangof4] *)

Lemma logspace_start_inj (a b c d : R) :
  sp.logspace a b = sp.logspace c d -> Rpower 10 a = Rpower 10 c.
Proof.
  intros E. rewrite <- (logspace_hd a b), <- (logspace_hd c d). now rewrite E.
Qed.

(** Static gains have no features: the selector of [bode] falls back to
    [logspace(-1, 1)] for any collection of them. *)
Lemma static_gain_default_omega (syslist : list static_gain) :
  default_omega syslist = inr (sp.logspace (-1) 1).
Proof.
  apply default_omega_fallback. rewrite features_of_flat_map.
  induction syslist as [|s rest IH]; [reflexivity | exact IH].
Qed.

(** C2, as the code has it. With no sweep passed, [nyquist] and [gangof4]
    both start from the fixed sweep [logspace(-2, 2)], 0.01 to 100 rad/s,
    whatever the poles and zeros of the systems. *)
Theorem nyquist_gangof4_fixed_default_sweep
    {sys : Type} `{LinSys sys} `{LinSysAlgebra sys} (s P C : sys) :
  hd_error (queries (snd (nyquist s None []))) = Some (sp.logspace (-2) 2) /\
  hd_error (queries (snd (gangof4 P C None []))) = Some (sp.logspace (-2) 2) /\
  spans (inr (sp.logspace (-2) 2)) (1 / 100) 100.
Proof.
  split; [apply nyquist_first_query|].
  split; [apply gangof4_first_query|].
  exists (sp.logspace (-2) 2). split; [reflexivity|].
  rewrite logspace_hd, logspace_last, Rpower10_m2, Rpower10_2. lra.
Qed.

(** C2, as stated, fails. For the system with poles at -1 and -10 the
    selector of [bode] gives [logspace(-1, 2)], yet [nyquist] queries it
    from 0.01 rad/s; and for static gains no collection of systems makes the
    selector give the sweep [gangof4] starts from. *)
Lemma nyquist_gangof4_sweep_is_not_the_selector :
  ~ (exists w,
       default_omega [two_pole] = inr w /\
       hd_error (queries (snd (nyquist two_pole None []))) = Some w) /\
  ~ (exists (sign : R) (syslist : list static_gain) (w : list R),
       default_omega syslist = inr w /\
       hd_error
         (queries
            (snd (@gangof4 static_gain _ (static_gain_algebra sign)
                    {| gain := 2 |} {| gain := 3 |} None []))) = Some w).
Proof.
  split.
  - intros [w [Hd Hq]].
    rewrite default_omega_two_poles in Hd by reflexivity.
    rewrite nyquist_first_query in Hq.
    change (fixed_sweep None) with (sp.logspace (-2) 2) in Hq.
    assert (E : sp.logspace (-1) 2 = sp.logspace (-2) 2) by congruence.
    apply logspace_start_inj in E.
    rewrite Rpower10_m1, Rpower10_m2 in E. lra.
  - intros [sign [syslist [w [Hd Hq]]]].
    rewrite static_gain_default_omega in Hd.
    rewrite (@gangof4_first_query static_gain _ (static_gain_algebra sign)) in Hq.
    change (fixed_sweep None) with (sp.logspace (-2) 2) in Hq.
    assert (E : sp.logspace (-1) 1 = sp.logspace (-2) 2) by congruence.
    apply logspace_start_inj in E.
    rewrite Rpower10_m1, Rpower10_m2 in E. lra.
Qed.

(** ** Further properties of [bode] *)

Lemma iter_over (c : R) (k : nat) (omega : list R) :
  c <> 0 ->
  Nat.iter k (fun w => np.over w c) omega = map (fun x => x / c ^ k) omega.
Proof.
  intros Hc. induction k as [|k IH].
  - cbn [Nat.iter nat_rect pow]. rewrite <- (map_id omega) at 1.
    apply map_ext. intros x. field.
  - rewrite Nat.iter_succ, IH. unfold np.over.
    rewrite map_map. apply map_ext. intros x. cbn [pow]. field.
    split; [now apply pow_nonzero | assumption].
Qed.

Section BodeFurther.

Context {sys : Type} `{LinSys sys}.
Variable unwrap : list R -> R -> list R.

Lemma bode_loop_extends_log (dB Hz : bool) (syslist : list sys) :
  forall omega t, exists l, snd (bode_loop unwrap dB Hz syslist omega t) = t ++ l.
Proof.
  induction syslist as [|s rest IH]; intros omega t.
  - exists []. cbn. now rewrite app_nil_r.
  - cbn [bode_loop]. unfold bind.
    pose proof (bode_body_run unwrap dB Hz s omega t) as Hrun.
    destruct (freqresp s omega) as [[mag phase] omega'].
    cbv zeta in Hrun. rewrite Hrun.
    match goal with
    | |- context [bode_loop _ _ _ rest ?w (t ++ ?l1)] =>
        destruct (IH w (t ++ l1)) as [l2 ->]; exists (l1 ++ l2)
    end.
    now rewrite app_assoc.
Qed.

(** X2. Shown in rad/sec, every system of a [bode] call is queried at
    the sweep the caller passed, when the systems hand the frequencies
    back unchanged. *)
Theorem bode_rad_same_sweep (dB : bool) (syslist : list sys) (omega : list R) :
  (forall s w, snd (freqresp s w) = w) ->
  queries (snd (bode unwrap (Many syslist) (Some omega) dB false [])) =
  repeat omega (length syslist).
Proof.
  intros Hecho. unfold bode, bind, lift. cbn [as_syslist bode_sweep].
  pose proof (bode_loop_ok unwrap dB false syslist omega []) as Hok.
  pose proof (bode_rad_queries_same_sweep unwrap dB Hecho syslist omega []) as Hq.
  destruct (bode_loop unwrap dB false syslist omega []) as [[e | []] t'];
    cbn [fst snd] in *; [discriminate|].
  exact Hq.
Qed.

(** X3. Shown in Hz, the [k]-th system (from 0) of a [bode] call is
    queried at the sweep divided by (2 pi)^k, when the systems hand the
    frequencies back unchanged. *)
Theorem bode_Hz_query_drift (dB : bool) (syslist : list sys) (omega : list R) :
  (forall s w, snd (freqresp s w) = w) ->
  queries (snd (bode unwrap (Many syslist) (Some omega) dB true [])) =
  map (fun k => map (fun w => w / (2 * PI) ^ k) omega) (seq 0 (length syslist)).
Proof.
  intros Hecho. unfold bode, bind, lift. cbn [as_syslist bode_sweep].
  pose proof (bode_loop_ok unwrap dB true syslist omega []) as Hok.
  pose proof (bode_loop_queries unwrap dB true Hecho syslist omega []) as Hq.
  destruct (bode_loop unwrap dB true syslist omega []) as [[e | []] t'];
    cbn [fst snd] in *; [discriminate|].
  unfold ret. cbn [snd]. rewrite Hq. cbn [queries flat_map app].
  apply map_ext. intros k. apply iter_over.
  pose proof PI_RGT_0. lra.
Qed.

(** X4. The phase curve of [bode] is the reported phase times 180/pi,
    passed through [unwrap] with period 360, whatever the flags. *)
Theorem bode_phase_degrees_unwrapped (dB Hz : bool) (s : sys) (omega : list R) :
  map snd (skipn 1 (curves (snd (bode_body unwrap dB Hz s omega [])))) =
  [unwrap (map (fun p => p * 180 / PI) (snd (fst (freqresp s omega)))) 360].
Proof.
  rewrite bode_body_curves. cbn [curves drawn flat_map app skipn map snd].
  unfold np.over, np.times. now rewrite map_map.
Qed.

End BodeFurther.

Lemma bode_rad_same_sweep_witness :
  queries (snd (bode (fun a _ => a) (Many [integrator; two_pole])
                  (Some [1; 10]) true false [])) =
  repeat [1; 10] (length [integrator; two_pole]).
Proof.
  apply (bode_rad_same_sweep (fun a _ => a) true [integrator; two_pole] [1; 10]).
  intros s w. reflexivity.
Defined.

Lemma bode_Hz_query_drift_witness :
  queries (snd (bode (fun a _ => a) (Many [integrator; two_pole])
                  (Some [1; 10]) false true [])) =
  map (fun k => map (fun w => w / (2 * PI) ^ k) [1; 10])
      (seq 0 (length [integrator; two_pole])).
Proof.
  apply (bode_Hz_query_drift (fun a _ => a) false [integrator; two_pole] [1; 10]).
  intros s w. reflexivity.
Defined.

(** ** More on the default frequency range *)

Lemma fold_Rmin_In (t : list R) (x : R) : In (fold_left Rmin t x) (x :: t).
Proof.
  revert x. induction t as [|a t IH]; intros x; cbn [fold_left].
  - now left.
  - destruct (IH (Rmin x a)) as [E | Hin].
    + rewrite <- E. unfold Rmin. destruct (Rle_dec x a); [now left | right; now left].
    + right. now right.
Qed.

Lemma fold_Rmax_In (t : list R) (x : R) : In (fold_left Rmax t x) (x :: t).
Proof.
  revert x. induction t as [|a t IH]; intros x; cbn [fold_left].
  - now left.
  - destruct (IH (Rmax x a)) as [E | Hin].
    + rewrite <- E. unfold Rmax. destruct (Rle_dec x a); [right; now left | now left].
    + right. now right.
Qed.

(** The minimum and the maximum depend on the members only. *)
Lemma fold_Rmin_members (x1 x2 : R) (t1 t2 : list R) :
  (forall y, In y (x1 :: t1) <-> In y (x2 :: t2)) ->
  fold_left Rmin t1 x1 = fold_left Rmin t2 x2.
Proof.
  intros Hsame. apply Rle_antisym.
  - apply fold_Rmin_le, Hsame, fold_Rmin_In.
  - apply fold_Rmin_le, Hsame, fold_Rmin_In.
Qed.

Lemma fold_Rmax_members (x1 x2 : R) (t1 t2 : list R) :
  (forall y, In y (x1 :: t1) <-> In y (x2 :: t2)) ->
  fold_left Rmax t1 x1 = fold_left Rmax t2 x2.
Proof.
  intros Hsame. apply Rle_antisym.
  - apply fold_Rmax_ge, Hsame, fold_Rmax_In.
  - apply fold_Rmax_ge, Hsame, fold_Rmax_In.
Qed.

Lemma log10_1_le (a b : R) : 0 < a -> a <= b -> np.log10_1 a <= np.log10_1 b.
Proof.
  intros Ha [Hlt | ->]; [|lra].
  unfold np.log10_1. pose proof ln10_pos as H10.
  pose proof (ln_increasing a b Ha Hlt) as Hln.
  apply Rmult_le_compat_r; [left; now apply Rinv_0_lt_compat | lra].
Qed.

Lemma floor_gt (x : R) : x - 1 < np.floor x.
Proof.
  unfold np.floor. pose proof (Zfloor_bound x). lra.
Qed.

Lemma ceil_lt (x : R) : np.ceil x < x + 1.
Proof.
  unfold np.ceil. pose proof (Zceil_bound x). lra.
Qed.

Lemma Rpower10_strict (x y : R) : x < y -> Rpower 10 x < Rpower 10 y.
Proof.
  intros Hxy. apply Rpower_lt; lra.
Qed.

(** With a start below the stop, the samples are positive and strictly
    increasing. *)
Lemma logspace_increasing (start stop : R) (i j : nat) :
  start < stop -> (i < j)%nat -> (j <= 49)%nat ->
  0 < nth i (sp.logspace start stop) 0 < nth j (sp.logspace start stop) 0.
Proof.
  intros Hlt Hij Hj.
  rewrite (logspace_nth start stop i) by lia.
  rewrite (logspace_nth start stop j) by lia.
  split; [unfold Rpower; apply exp_pos|].
  apply Rpower10_strict.
  assert (HI : INR i < INR j) by now apply lt_INR.
  assert (Hstep : 0 < (stop - start) / 49) by lra.
  nra.
Qed.

Section DefaultRangeFurther.

Context {sys : Type} `{LinSys sys}.

Lemma mask_ne0_In (a : list R) (m : R) : In m (np.mask_ne0 a) <-> In m a /\ m <> 0.
Proof.
  unfold np.mask_ne0. rewrite filter_In, ne0_true. reflexivity.
Qed.

(** The exponents of the default range are integers at least two apart. *)
Lemma default_omega_decades (syslist : list sys) :
  exists a b : Z,
    default_omega syslist = inr (sp.logspace (IZR a) (IZR b)) /\ (a + 2 <= b)%Z.
Proof.
  destruct (np.mask_ne0 (features_of syslist)) as [|f fs] eqn:E.
  - exists (-1)%Z, 1%Z. split; [now apply default_omega_fallback | lia].
  - rewrite (default_omega_features _ _ _ E).
    set (lo := fold_left Rmin _ _). set (hi := fold_left Rmax _ _).
    exists (Zfloor lo - 1)%Z, (Zceil hi + 1)%Z. split.
    + unfold np.floor, np.ceil. now rewrite minus_IZR, plus_IZR.
    + assert (Hlo : lo <= np.log10_1 f) by apply fold_Rmin_le_init.
      assert (Hhi : np.log10_1 f <= hi) by apply fold_Rmax_ge_init.
      pose proof (floor_le lo) as Hfl. pose proof (ceil_ge hi) as Hce.
      unfold np.floor, np.ceil in *.
      assert (Hz : (Zfloor lo <= Zceil hi)%Z) by (apply le_IZR; lra).
      lia.
Qed.

(** X5. Whatever the systems, the sweep [bode] derives when [omega] is
    absent runs from 10^a to 10^b for integers a and b with b >= a + 2:
    whole decades, and at least two of them. *)
Theorem bode_default_sweep_whole_decades (syslist : list sys) :
  exists a b : Z,
    bode_sweep syslist None = inr (sp.logspace (IZR a) (IZR b)) /\
    (a + 2 <= b)%Z /\
    spans (bode_sweep syslist None) (powerRZ 10 a) (powerRZ 10 b).
Proof.
  destruct (default_omega_decades syslist) as [a [b [E Hab]]].
  exists a, b. cbn [bode_sweep]. rewrite E.
  split; [reflexivity|]. split; [assumption|].
  exists (sp.logspace (IZR a) (IZR b)). split; [reflexivity|].
  rewrite logspace_hd, logspace_last, !powerRZ_Rpower by lra. now split.
Qed.

(** X6. The derived sweep has 50 samples, all positive and strictly
    increasing. *)
Theorem bode_default_sweep_increasing (syslist : list sys) :
  exists sweep,
    bode_sweep syslist None = inr sweep /\
    length sweep = 50%nat /\
    forall i j, (i < j)%nat -> (j <= 49)%nat ->
      0 < nth i sweep 0 < nth j sweep 0.
Proof.
  destruct (default_omega_decades syslist) as [a [b [E Hab]]].
  exists (sp.logspace (IZR a) (IZR b)). cbn [bode_sweep].
  split; [exact E|]. split; [apply logspace_length|].
  intros i j Hij Hj. apply logspace_increasing; [|assumption|assumption].
  apply IZR_lt. lia.
Qed.

(** X7. The derived sweep depends only on which non-zero magnitudes occur
    among the poles and zeros: two collections with the same non-zero
    magnitudes get the same sweep, whatever the order, the multiplicity,
    the poles at the origin, or the split into systems, poles and zeros. *)
Theorem bode_default_sweep_same_features (l1 l2 : list sys) :
  (forall m, m <> 0 -> (In m (features_of l1) <-> In m (features_of l2))) ->
  bode_sweep l1 None = bode_sweep l2 None.
Proof.
  intros Hsame. cbn [bode_sweep].
  assert (Hmask : forall m, In m (np.mask_ne0 (features_of l1)) <->
                            In m (np.mask_ne0 (features_of l2))).
  { intros m. rewrite !mask_ne0_In. split; intros [Hin Hm];
      (split; [now apply (Hsame m Hm) | assumption]). }
  destruct (np.mask_ne0 (features_of l1)) as [|f1 fs1] eqn:E1;
    destruct (np.mask_ne0 (features_of l2)) as [|f2 fs2] eqn:E2.
  - now rewrite !default_omega_fallback.
  - exfalso. apply (Hmask f2). now left.
  - exfalso. apply (Hmask f1). now left.
  - rewrite (default_omega_features _ _ _ E1), (default_omega_features _ _ _ E2).
    assert (Hlogs : forall y, In y (np.log10_1 f1 :: map np.log10_1 fs1) <->
                              In y (np.log10_1 f2 :: map np.log10_1 fs2)).
    { intros y.
      change (In y (map np.log10_1 (f1 :: fs1)) <-> In y (map np.log10_1 (f2 :: fs2))).
      rewrite !in_map_iff. split; intros [m [Hy Hm]]; exists m;
        (split; [assumption | now apply Hmask]). }
    now rewrite (fold_Rmin_members _ _ _ _ Hlogs), (fold_Rmax_members _ _ _ _ Hlogs).
Qed.

(** X8. The margin is at least one decade and less than two: when [m] is
    the smallest and [M] the largest non-zero magnitude among the poles and
    zeros, the derived sweep starts in (m/100, m/10] and ends in
    [10 M, 100 M). *)
Theorem bode_default_sweep_margin_under_two_decades
    (syslist : list sys) (m M : R) :
  In m (features_of syslist) -> In M (features_of syslist) -> m <> 0 ->
  (forall f, In f (features_of syslist) -> f <> 0 -> m <= f <= M) ->
  exists sweep,
    bode_sweep syslist None = inr sweep /\
    m / 100 < hd 0 sweep <= m / 10 /\
    10 * M <= last sweep 0 < 100 * M.
Proof.
  intros Hm HM Hm0 Hbounds.
  assert (Hmpos : 0 < m) by (pose proof (features_nonneg _ _ Hm); lra).
  assert (HMpos : 0 < M) by (pose proof (Hbounds m Hm Hm0); lra).
  assert (HmIn : In m (np.mask_ne0 (features_of syslist)))
    by (apply mask_ne0_In; now split).
  assert (HMIn : In M (np.mask_ne0 (features_of syslist)))
    by (apply mask_ne0_In; split; [assumption | lra]).
  destruct (np.mask_ne0 (features_of syslist)) as [|f fs] eqn:E;
    [contradiction|].
  cbn [bode_sweep]. rewrite (default_omega_features _ _ _ E).
  set (lo := fold_left Rmin _ _). set (hi := fold_left Rmax _ _).
  assert (Hrange : forall y, In y (np.log10_1 f :: map np.log10_1 fs) ->
                     np.log10_1 m <= y <= np.log10_1 M).
  { intros y Hy.
    change (In y (map np.log10_1 (f :: fs))) in Hy.
    apply in_map_iff in Hy. destruct Hy as [g [<- Hg]].
    rewrite <- E in Hg. apply mask_ne0_In in Hg. destruct Hg as [Hg Hg0].
    destruct (Hbounds g Hg Hg0) as [Hmg HgM].
    split; apply log10_1_le; lra. }
  assert (Hlo : lo = np.log10_1 m).
  { apply Rle_antisym.
    - apply fold_Rmin_le.
      change (In (np.log10_1 m) (map np.log10_1 (f :: fs))). now apply in_map.
    - apply Hrange, fold_Rmin_In. }
  assert (Hhi : hi = np.log10_1 M).
  { apply Rle_antisym.
    - apply Hrange, fold_Rmax_In.
    - apply fold_Rmax_ge.
      change (In (np.log10_1 M) (map np.log10_1 (f :: fs))). now apply in_map. }
  eexists. split; [reflexivity|].
  rewrite logspace_hd, logspace_last, Rpower10_pred, Rpower10_succ.
  pose proof (Rpower10_log10 m Hmpos) as Em.
  pose proof (Rpower10_log10 M HMpos) as EM.
  pose proof (floor_le lo) as Hfl. pose proof (floor_gt lo) as Hfg.
  pose proof (ceil_ge hi) as Hce. pose proof (ceil_lt hi) as Hcl.
  rewrite Hlo in *. rewrite Hhi in *.
  pose proof (Rpower10_mono _ _ Hfl) as H1.
  pose proof (Rpower10_strict _ _ Hfg) as H2.
  pose proof (Rpower10_mono _ _ Hce) as H3.
  pose proof (Rpower10_strict _ _ Hcl) as H4.
  rewrite Rpower10_pred in H2. rewrite Rpower10_succ in H4.
  lra.
Qed.

End DefaultRangeFurther.

Lemma bode_default_sweep_same_features_witness :
  bode_sweep [two_pole] None = bode_sweep [integrator; two_pole; two_pole] None.
Proof.
  apply (bode_default_sweep_same_features [two_pole] [integrator; two_pole; two_pole]).
  intros m Hm. rewrite !features_of_flat_map. cbn. rewrite !abs1_real.
  rewrite Rabs_R0. intuition congruence.
Defined.

Lemma bode_default_sweep_margin_under_two_decades_witness :
  exists sweep,
    bode_sweep [two_pole] None = inr sweep /\
    1 / 100 < hd 0 sweep <= 1 / 10 /\
    10 * 10 <= last sweep 0 < 100 * 10.
Proof.
  assert (F : features_of [two_pole] = [1; 10]).
  { rewrite features_of_flat_map. cbn. rewrite !abs1_real.
    f_equal; [|f_equal]; rewrite Rabs_left; lra. }
  apply (bode_default_sweep_margin_under_two_decades [two_pole] 1 10).
  - rewrite F. now left.
  - rewrite F. right. now left.
  - lra.
  - intros f Hf _. rewrite F in Hf.
    destruct Hf as [<- | [<- | []]]; lra.
Defined.

(** ** Shifting the features by a decade *)

Lemma log10_1_times10 (g : R) : 0 < g -> np.log10_1 (10 * g) = np.log10_1 g + 1.
Proof.
  intros Hg. unfold np.log10_1. rewrite ln_mult by lra.
  field. pose proof ln10_pos. lra.
Qed.

Lemma floor_succ (x : R) : np.floor (x + 1) = np.floor x + 1.
Proof.
  unfold np.floor. change 1 with (IZR 1) at 1.
  now rewrite Zfloor_addz, plus_IZR.
Qed.

Lemma ceil_succ (x : R) : np.ceil (x + 1) = np.ceil x + 1.
Proof.
  unfold np.ceil. change 1 with (IZR 1) at 1.
  now rewrite Zceil_addz, plus_IZR.
Qed.

Lemma fold_Rmin_succ (t : list R) (x : R) :
  fold_left Rmin (map (fun y => y + 1) t) (x + 1) = fold_left Rmin t x + 1.
Proof.
  revert x. induction t as [|a t IH]; intros x; cbn [map fold_left]; [reflexivity|].
  rewrite <- IH. f_equal.
  unfold Rmin. destruct (Rle_dec (x + 1) (a + 1)), (Rle_dec x a); lra.
Qed.

Lemma fold_Rmax_succ (t : list R) (x : R) :
  fold_left Rmax (map (fun y => y + 1) t) (x + 1) = fold_left Rmax t x + 1.
Proof.
  revert x. induction t as [|a t IH]; intros x; cbn [map fold_left]; [reflexivity|].
  rewrite <- IH. f_equal.
  unfold Rmax. destruct (Rle_dec (x + 1) (a + 1)), (Rle_dec x a); lra.
Qed.

Lemma mask_ne0_times10 (a : list R) :
  np.mask_ne0 (map (fun f => 10 * f) a) = map (fun f => 10 * f) (np.mask_ne0 a).
Proof.
  unfold np.mask_ne0. induction a as [|x a IH]; [reflexivity|].
  cbn [map filter]. rewrite IH.
  assert (E : np.ne0 (10 * x) = np.ne0 x).
  { unfold np.ne0. destruct (Req_dec_T (10 * x) 0), (Req_dec_T x 0);
      try reflexivity; exfalso; lra. }
  rewrite E. now destruct (np.ne0 x).
Qed.

(** One decade up in both exponents multiplies every sample by ten. *)
Lemma logspace_succ (start stop : R) :
  sp.logspace (start + 1) (stop + 1) =
  map (fun w => 10 * w) (sp.logspace start stop).
Proof.
  unfold sp.logspace, np.logspace. change 50%nat with (S (S 48)).
  unfold np.linspace. rewrite !map_app, !map_map. cbn [map]. f_equal.
  - apply map_ext. intros i.
    replace (INR i * ((stop + 1 - (start + 1)) / INR (S 48)) + (start + 1))
      with (INR i * ((stop - start) / INR (S 48)) + start + 1).
    + rewrite Rpower10_succ. ring.
    + replace (stop + 1 - (start + 1)) with (stop - start) by ring. ring.
  - rewrite Rpower10_succ. f_equal. ring.
Qed.

Section DecadeShift.

Context {sys : Type} `{LinSys sys}.

(** X9. Ten times the features, ten times the sweep: when the pole and
    zero magnitudes of a second collection are those of the first
    multiplied by 10, and one of them is non-zero, the sweep derived for
    the second is the sweep derived for the first with every frequency
    multiplied by 10. *)
Theorem bode_default_sweep_decade_shift (l1 l2 : list sys) :
  features_of l2 = map (fun f => 10 * f) (features_of l1) ->
  (exists m, In m (features_of l1) /\ m <> 0) ->
  exists sweep,
    bode_sweep l1 None = inr sweep /\
    bode_sweep l2 None = inr (map (fun w => 10 * w) sweep).
Proof.
  intros Hscaled [m [Hm Hm0]]. cbn [bode_sweep].
  assert (HmIn : In m (np.mask_ne0 (features_of l1)))
    by (apply mask_ne0_In; now split).
  destruct (np.mask_ne0 (features_of l1)) as [|f fs] eqn:E1; [contradiction|].
  assert (E2 : np.mask_ne0 (features_of l2) =
               10 * f :: map (fun g => 10 * g) fs)
    by (now rewrite Hscaled, mask_ne0_times10, E1).
  assert (Hpos : forall g, In g (f :: fs) -> 0 < g).
  { intros g Hg. rewrite <- E1 in Hg. apply mask_ne0_In in Hg.
    destruct Hg as [Hg Hg0]. pose proof (features_nonneg _ _ Hg). lra. }
  rewrite (default_omega_features _ _ _ E1), (default_omega_features _ _ _ E2).
  eexists. split; [reflexivity|].
  rewrite map_map.
  rewrite (map_ext_in (fun g => np.log10_1 (10 * g))
                      (fun g => np.log10_1 g + 1))
    by (intros g Hg; apply log10_1_times10, Hpos; now right).
  rewrite <- (map_map np.log10_1 (fun y => y + 1)).
  rewrite (log10_1_times10 f) by (apply Hpos; now left).
  rewrite fold_Rmin_succ, fold_Rmax_succ, floor_succ, ceil_succ.
  rewrite <- logspace_succ. f_equal. f_equal; ring.
Qed.

End DecadeShift.

Lemma bode_default_sweep_decade_shift_witness :
  exists sweep,
    bode_sweep [two_pole] None = inr sweep /\
    bode_sweep [{| pw_poles := [(-10, 0); (-100, 0)]; pw_zeros := [];
                   pw_mag := fun _ => 1; pw_phase := fun _ => 0 |}] None =
    inr (map (fun w => 10 * w) sweep).
Proof.
  apply bode_default_sweep_decade_shift.
  - rewrite !features_of_flat_map. cbn. rewrite !abs1_real.
    f_equal; [|f_equal]; rewrite !Rabs_left; lra.
  - exists 10. split; [exact two_pole_feature_10 | lra].
Defined.

(** ** More on the Bode renderer *)

Section BodeMore.

Context {sys : Type} `{LinSys sys}.
Variable unwrap : list R -> R -> list R.

(** Once the sweep is there, [bode] is its loop followed by the return. *)
Lemma bode_run
    (a : sysarg sys) (omega : option (list R)) (dB Hz : bool)
    (w : list R) (t : list (call sys)) :
  bode_sweep (as_syslist a) omega = inr w ->
  bode unwrap a omega dB Hz t =
  (inr (211%Z, 212%Z), snd (bode_loop unwrap dB Hz (as_syslist a) w t)).
Proof.
  intros E. unfold bode, bind, lift. rewrite E.
  pose proof (bode_loop_ok unwrap dB Hz (as_syslist a) w t) as Hok.
  destruct (bode_loop unwrap dB Hz (as_syslist a) w t) as [[e | []] t'];
    cbn [fst] in Hok; [discriminate | reflexivity].
Qed.

Lemma bode_sweep_total (l : list sys) (omega : option (list R)) :
  exists w, bode_sweep l omega = inr w.
Proof.
  destruct omega as [w|]; [now exists w | apply default_omega_total].
Qed.

(** X10. An empty collection is no error: [bode] queries nothing, draws
    nothing and returns (211, 212), with or without a sweep (without one,
    the selector falls back to the single feature 1). *)
Theorem bode_empty_collection
    (omega : option (list R)) (dB Hz : bool) (t : list (call sys)) :
  bode unwrap (Many []) omega dB Hz t = (inr (211%Z, 212%Z), t).
Proof.
  destruct (bode_sweep_total [] omega) as [w E].
  now rewrite (bode_run (Many []) omega dB Hz w t E).
Qed.

(** X11. With no sweep passed, the selector runs over the whole collection
    before any system is asked, and the first system is queried at the
    sweep it derives. *)
Theorem bode_first_query_at_default_sweep
    (s : sys) (rest : list sys) (dB Hz : bool) :
  exists sweep,
    default_omega (s :: rest) = inr sweep /\
    hd_error (queries (snd (bode unwrap (Many (s :: rest)) None dB Hz []))) =
    Some sweep.
Proof.
  destruct (default_omega_total (s :: rest)) as [sweep E].
  exists sweep. split; [exact E|].
  rewrite (bode_run (Many (s :: rest)) None dB Hz sweep [] E).
  cbn [snd as_syslist bode_loop]. unfold bind.
  pose proof (bode_body_result unwrap dB Hz s sweep []) as Hres.
  pose proof (bode_body_queries unwrap dB Hz s sweep []) as Hq.
  destruct (bode_body unwrap dB Hz s sweep []) as [[e | w] t'];
    cbn [fst snd] in Hres, Hq; [discriminate|].
  destruct (bode_loop_extends_log unwrap dB Hz rest w t') as [l ->].
  rewrite queries_app, Hq. reflexivity.
Qed.

Lemma bode_loop_counts (dB Hz : bool) (syslist : list sys) :
  forall omega t,
    let log := snd (bode_loop unwrap dB Hz syslist omega t) in
    length (queries log) = (length (queries t) + length syslist)%nat /\
    length (curves log) = (length (curves t) + 2 * length syslist)%nat /\
    length (drawn log) = (length (drawn t) + 13 * length syslist)%nat.
Proof.
  induction syslist as [|s rest IH]; intros omega t; cbn zeta.
  - cbn [bode_loop length]. unfold ret. cbn [snd]. lia.
  - cbn [bode_loop]. unfold bind.
    pose proof (bode_body_run unwrap dB Hz s omega t) as Hrun.
    destruct (freqresp s omega) as [[mag phase] omega'].
    cbv zeta in Hrun. rewrite Hrun.
    match goal with
    | |- context [bode_loop _ _ _ rest ?w ?t'] =>
        destruct (IH w t') as [Hq [Hc Hd]]
    end.
    rewrite Hq, Hc, Hd.
    rewrite queries_app, curves_app, drawn_app, !length_app.
    set (qt := length (queries t)). set (ct := length (curves t)).
    set (dt := length (drawn t)). cbn [length].
    destruct dB; cbn; lia.
Qed.

(** X12. Per system, [bode] makes one frequency-response query and thirteen
    pyplot calls, two of which draw a curve. *)
Theorem bode_call_counts
    (a : sysarg sys) (omega : option (list R)) (dB Hz : bool) :
  let log := snd (bode unwrap a omega dB Hz []) in
  length (queries log) = length (as_syslist a) /\
  length (curves log) = (2 * length (as_syslist a))%nat /\
  length (drawn log) = (13 * length (as_syslist a))%nat.
Proof.
  destruct (bode_sweep_total (as_syslist a) omega) as [w E].
  cbn zeta. rewrite (bode_run a omega dB Hz w [] E). cbn [snd].
  exact (bode_loop_counts dB Hz (as_syslist a) w []).
Qed.

Lemma bode_loop_dB_frame (Hz : bool) (syslist : list sys) :
  forall omega t1 t2,
    queries t1 = queries t2 ->
    map fst (curves t1) = map fst (curves t2) ->
    queries (snd (bode_loop unwrap true Hz syslist omega t1)) =
    queries (snd (bode_loop unwrap false Hz syslist omega t2)) /\
    map fst (curves (snd (bode_loop unwrap true Hz syslist omega t1))) =
    map fst (curves (snd (bode_loop unwrap false Hz syslist omega t2))).
Proof.
  induction syslist as [|s rest IH]; intros omega t1 t2 Hq Hc.
  - cbn. now split.
  - cbn [bode_loop]. unfold bind.
    pose proof (bode_body_run unwrap true Hz s omega t1) as Hrun1.
    pose proof (bode_body_run unwrap false Hz s omega t2) as Hrun2.
    destruct (freqresp s omega) as [[mag phase] omega'].
    cbv zeta in Hrun1, Hrun2. rewrite Hrun1, Hrun2.
    apply IH.
    + rewrite !queries_app, Hq. reflexivity.
    + rewrite !curves_app, !map_app, Hc. reflexivity.
Qed.

(** X13. The dB flag is for display only: with it or without it, the same
    systems are queried at the same frequencies and the curves are drawn
    over the same frequency axes. *)
Theorem bode_dB_is_display_only
    (a : sysarg sys) (omega : option (list R)) (Hz : bool) (t : list (call sys)) :
  queries (snd (bode unwrap a omega true Hz t)) =
  queries (snd (bode unwrap a omega false Hz t)) /\
  map fst (curves (snd (bode unwrap a omega true Hz t))) =
  map fst (curves (snd (bode unwrap a omega false Hz t))).
Proof.
  destruct (bode_sweep_total (as_syslist a) omega) as [w E].
  rewrite (bode_run a omega true Hz w t E), (bode_run a omega false Hz w t E).
  cbn [snd]. now apply bode_loop_dB_frame.
Qed.

(** X14. For a single system, the Hz flag changes the frequency axis only:
    the magnitude and phase values drawn are the same with and without
    it. *)
Theorem bode_Hz_keeps_values (s : sys) (omega : list R) (dB : bool) :
  map snd (curves (snd (bode unwrap (Single s) (Some omega) dB true []))) =
  map snd (curves (snd (bode unwrap (Single s) (Some omega) dB false []))).
Proof.
  rewrite (bode_run (Single s) (Some omega) dB true omega [] eq_refl).
  rewrite (bode_run (Single s) (Some omega) dB false omega [] eq_refl).
  cbn [snd as_syslist bode_loop]. unfold bind.
  pose proof (bode_body_run unwrap dB true s omega []) as Hrun1.
  pose proof (bode_body_run unwrap dB false s omega []) as Hrun2.
  destruct (freqresp s omega) as [[mag phase] omega'].
  cbv zeta in Hrun1, Hrun2. rewrite Hrun1, Hrun2.
  destruct dB; reflexivity.
Qed.

End BodeMore.

(** ** More on the Nyquist renderer *)

Lemma multiply_mismatch (a b : list R) :
  length a <> length b -> length a <> 1%nat -> length b <> 1%nat ->
  np.multiply a b = inl ValueError.
Proof.
  intros Hab Ha Hb. unfold np.multiply.
  destruct (Nat.eqb_spec (length a) (length b)) as [E | _]; [contradiction|].
  destruct a as [|x [|x' a]]; destruct b as [|y [|y' b]];
    cbn in *; try reflexivity; congruence.
Qed.

Section NyquistMore.

Context {sys : Type} `{LinSys sys}.

(** The log of a call whose response has magnitude and phase of one
    length. *)
Lemma nyquist_log (s : sys) (omega : option (list R)) (t : list (call sys)) :
  let w := fixed_sweep omega in
  let mag := fst (fst (freqresp s w)) in
  let phase := snd (fst (freqresp s w)) in
  let x := map (fun p => fst p * snd p) (combine mag (sp.cos phase)) in
  let y := map (fun p => fst p * snd p) (combine mag (sp.sin phase)) in
  length mag = length phase ->
  nyquist s omega t =
  (inr tt,
   t ++ [Freqresp s w; Plt (plot x y "-"); Plt (plot x (np.negative y) "--");
         Plt (plot [-1] [0] "+k")]).
Proof.
  intros w mag phase x y Hlen.
  assert (Hc : length mag = length (sp.cos phase))
    by (unfold sp.cos, np.cos; now rewrite length_map).
  assert (Hs : length mag = length (sp.sin phase))
    by (unfold sp.sin, np.sin; now rewrite length_map).
  unfold nyquist. fold w. run_M.
  subst x y mag phase. destruct (freqresp s w) as [[mag phase] w'].
  cbn [fst snd] in *. unfold sp.multiply.
  rewrite (multiply_same_length _ _ Hc), (multiply_same_length _ _ Hs).
  rewrite <- !app_assoc. reflexivity.
Qed.

(** X15. A response whose magnitude and phase differ in length, neither of
    length one, makes [nyquist] raise ValueError at the first product:
    the system has been queried, nothing has been drawn. *)
Theorem nyquist_raises_on_shape_mismatch
    (s : sys) (omega : option (list R)) (t : list (call sys)) :
  let w := fixed_sweep omega in
  let mag := fst (fst (freqresp s w)) in
  let phase := snd (fst (freqresp s w)) in
  length mag <> length phase -> length mag <> 1%nat -> length phase <> 1%nat ->
  nyquist s omega t = (inl ValueError, t ++ [Freqresp s w]).
Proof.
  intros w mag phase Hne Hm Hp.
  unfold nyquist. fold w. run_M.
  subst mag phase. destruct (freqresp s w) as [[mag phase] w'].
  cbn [fst snd] in *. unfold sp.multiply.
  rewrite multiply_mismatch; [reflexivity | | assumption | ];
    unfold sp.cos, np.cos; now rewrite length_map.
Qed.

(** X16. Every point [nyquist] draws lies at the distance from the origin
    that the system reported as magnitude, on the primary curve and on the
    mirror curve alike: x_i^2 + y_i^2 = mag_i^2. *)
Theorem nyquist_points_at_reported_magnitude
    (s : sys) (omega : option (list R)) :
  let w := fixed_sweep omega in
  let mag := fst (fst (freqresp s w)) in
  let phase := snd (fst (freqresp s w)) in
  length mag = length phase ->
  exists x y mirror,
    curves (snd (nyquist s omega [])) = [(x, y); (x, mirror); ([-1], [0])] /\
    forall i, (i < length mag)%nat ->
      nth i x 0 * nth i x 0 + nth i y 0 * nth i y 0 = nth i mag 0 * nth i mag 0 /\
      nth i x 0 * nth i x 0 + nth i mirror 0 * nth i mirror 0 =
      nth i mag 0 * nth i mag 0.
Proof.
  intros w mag phase Hlen.
  rewrite (nyquist_log s omega [] Hlen). fold w. fold mag. fold phase.
  do 3 eexists. split; [reflexivity|].
  intros i Hi.
  assert (Hc : length mag = length (sp.cos phase))
    by (unfold sp.cos, np.cos; now rewrite length_map).
  assert (Hs : length mag = length (sp.sin phase))
    by (unfold sp.sin, np.sin; now rewrite length_map).
  unfold np.negative. rewrite (nth_map_in_range Ropp _ 0)
    by (rewrite length_map, length_combine, <- Hs, Nat.min_id; exact Hi).
  rewrite !nth_product by assumption.
  unfold sp.cos, sp.sin, np.cos, np.sin.
  rewrite (nth_map_in_range Rtrigo_def.cos _ 0) by lia.
  rewrite (nth_map_in_range Rtrigo_def.sin _ 0) by lia.
  pose proof (sin2_cos2 (nth i phase 0)) as Hsc. unfold Rsqr in Hsc.
  set (m := nth i mag 0) in *. set (c := cos (nth i phase 0)) in *.
  set (sn := sin (nth i phase 0)) in *.
  split; nra.
Qed.

(** X17. Whether it returns or raises, [nyquist] leaves the prior log in
    place and adds one query, at its sweep, followed by drawing calls
    only. *)
Theorem nyquist_one_query_then_drawing
    (s : sys) (omega : option (list R)) (t : list (call sys)) :
  exists l : list plt_call,
    snd (nyquist s omega t) = t ++ Freqresp s (fixed_sweep omega) :: map Plt l.
Proof.
  unfold nyquist. run_M.
  destruct (freqresp s (fixed_sweep omega)) as [[mag phase] w'].
  destruct (sp.multiply mag (sp.cos phase)) as [e | x];
    [exists []; reflexivity|].
  destruct (sp.multiply mag (sp.sin phase)) as [e | y];
    [exists []; reflexivity|].
  exists [plot x y "-"; plot x (np.negative y) "--"; plot [-1] [0] "+k"].
  cbn [map]. rewrite <- !app_assoc. reflexivity.
Qed.

End NyquistMore.

Lemma nyquist_raises_on_shape_mismatch_witness :
  nyquist ragged (Some [1; 2; 3]) [] =
  (inl ValueError, [] ++ [Freqresp ragged [1; 2; 3]]).
Proof.
  apply (nyquist_raises_on_shape_mismatch ragged (Some [1; 2; 3]) []);
    cbn; lia.
Defined.

Lemma nyquist_points_at_reported_magnitude_witness :
  exists x y mirror,
    curves (snd (nyquist two_pole (Some [1; 10]) [])) =
      [(x, y); (x, mirror); ([-1], [0])] /\
    forall i, (i < 2)%nat ->
      nth i x 0 * nth i x 0 + nth i y 0 * nth i y 0 =
      nth i (map (pw_mag two_pole) [1; 10]) 0 *
      nth i (map (pw_mag two_pole) [1; 10]) 0 /\
      nth i x 0 * nth i x 0 + nth i mirror 0 * nth i mirror 0 =
      nth i (map (pw_mag two_pole) [1; 10]) 0 *
      nth i (map (pw_mag two_pole) [1; 10]) 0.
Proof.
  exact (nyquist_points_at_reported_magnitude two_pole (Some [1; 10]) eq_refl).
Defined.

(** ** More on the Gang of Four *)

Section GangOfFourMore.

Context {sys : Type} `{LinSys sys} `{LinSysAlgebra sys}.

(** X18. [gangof4] passes the frequencies one response hands back on to
    the next query and never rescales them: when the systems hand the
    frequencies back unchanged, T, P*S, C*S and S are all queried at the
    same sweep. *)
Theorem gangof4_same_sweep (P C : sys) (omega : option (list R)) :
  (forall s w, snd (freqresp s w) = w) ->
  queries (snd (gangof4 P C omega [])) =
  repeat (fixed_sweep omega) 4.
Proof.
  intros Hecho. rewrite gangof4_log. cbn [snd app queries flat_map repeat].
  now rewrite !Hecho.
Qed.

End GangOfFourMore.

Lemma gangof4_same_sweep_witness :
  queries (snd (@gangof4 static_gain _ (static_gain_algebra (-1))
                  {| gain := 2 |} {| gain := 3 |} (Some [1; 10]) [])) =
  repeat [1; 10] 4.
Proof.
  apply (@gangof4_same_sweep static_gain _ (static_gain_algebra (-1))).
  intros s w. reflexivity.
Defined.
